(** * OpenMP_Schedule: the two benchmark kernels of [main.cc]

    A shallow embedding of [src/main.cc]: the global arrays [a], [b], [c]
    and [jmax], the two kernels [loop1chunk] and [loop2chunk], the two
    initialisation routines [init1] and [init2], the two checksum
    routines [valid1] and [valid2], the driver [main], and the report
    of the OpenMP configuration, [omp_sched_to_cstr] and
    [print_omp_config].

    - [int] values are mathematical integers ([Z]); every integer the
      sequential routines compute lies in [0, N*N], far from the 32-bit
      bounds, and a counter of a kernel moves by one at a step, from [0]
      or [N - 1], so no wrap-around has to be written out.
    - [double] values are Rocq's primitive binary64 floats, with the
      IEEE-754 round-to-nearest [+], [*] and [/] of [PrimFloat]: every
      operation of the source is rounded on its own.
    - [cos] and [log] come from the C mathematical library, which is not
      part of the repository: they are parameters of the development.
    - An array access outside the declared bounds is undefined behaviour
      in C; here it makes the computation return [None].
    - Every access is recorded in a trace of read and write events, so
      that the sets of locations a piece of code touches can be stated.
      Locations are the cells of the four global arrays and the two
      counters [j] and [k] of the kernels.
    - [init1], [init2], [valid1] and [valid2] are sequential code: they
      are programs of the monad [M] below.
    - The loops of [loop1chunk] and [loop2chunk] stand under
      [#pragma omp parallel for schedule(runtime)].  The source declares
      the inner counters [j] and [k] at function scope and names them in
      no [private] clause, so that under the data-sharing rules of
      OpenMP the threads of the team share them; only the counter [i]
      of the loop under the directive is private.  A kernel is
      therefore modelled as a team of threads: each thread has its
      share of the outer iterations, chosen by the runtime, and stands
      at some place of the body of the outer loop; the memory, [j] and
      [k] are common to all.  The body is cut into steps, one for each
      of the init, test and increment parts of the inner [for]
      statements and one for the assignment they repeat; a step is
      atomic, and an [execution] says which thread takes each step.
      The C and OpenMP standards give a run in which two threads
      access [j] without synchronisation no meaning at all; the runs
      of this model are those in which the steps follow one another
      in some order.
    - The specification describes the kernels as loops whose outer
      iterations each have inner counters of their own.  That reading
      is written down too, as [runKernelA] and [runKernelB], the names
      the specification uses, to be compared with what the code
      does. *)

From Stdlib Require Import ZArith Lia Floats Uint63 Ascii String DecimalString DecimalZ.
From stdpp Require Import base option list list_numbers strings.

Local Open Scope Z_scope.

(** ** Constants *)

Definition N : Z := 729.
Definition reps : Z := 100.

(** ** Numbers *)

(** The conversion [(double) z] of an [int]: exact for every 32-bit
    value. *)
Definition of_int (z : Z) : float :=
  if z <? 0 then PrimFloat.opp (PrimFloat.of_uint63 (Uint63.of_Z (- z)))
  else PrimFloat.of_uint63 (Uint63.of_Z z).

(** The literal [3.142] of [init1], as the nearest binary64 value. *)
Definition c3142 : float := 0x1.922d0e5604189p+1%float.


(** C's [%] on [int]: undefined for a zero divisor, truncating
    otherwise. *)
Definition c_rem (x y : Z) : option Z :=
  if y =? 0 then None else Some (Z.rem x y).

(** ** Memory *)

Record mem : Type := Mem {
  a : list (list float);
  b : list (list float);
  c : list float;
  jmax : list Z
}.

(** The shape the declarations [double a[N][N], b[N][N], c[N]] and
    [int jmax[N]] give to the memory. *)
Definition matrix_ok (m : list (list float)) : Prop :=
  length m = Z.to_nat N ∧ Forall (λ r, length r = Z.to_nat N) m.

Record wf (s : mem) : Prop := Wf {
  wf_a : matrix_ok (a s);
  wf_b : matrix_ok (b s);
  wf_c : length (c s) = Z.to_nat N;
  wf_jmax : length (jmax s) = Z.to_nat N
}.

(** Reading [l[i]]. *)
Definition get {A} (l : list A) (i : Z) : option A :=
  if i <? 0 then None else l !! Z.to_nat i.

(** Writing [l[i] = v]; the caller has checked the index. *)
Definition put {A} (l : list A) (i : Z) (v : A) : list A :=
  <[Z.to_nat i := v]> l.

(** Reading [m[i][j]]. *)
Definition get2 {A} (m : list (list A)) (i j : Z) : option A :=
  match get m i with
  | Some r => get r j
  | None => None
  end.

(** Writing [m[i][j] = v]; the caller has checked the indices. *)
Definition put2 {A} (m : list (list A)) (i j : Z) (v : A) : list (list A) :=
  match get m i with
  | Some r => put m i (put r j v)
  | None => m
  end.

(** ** Locations and events *)

(** The cells of the four global arrays, and the counters [j] and [k]
    of the kernel that is running: they are declared at function scope,
    outside the parallel loop, so that the threads of the team share
    them as they share the arrays. *)
Inductive loc : Type :=
  | LocA (i j : Z)
  | LocB (i j : Z)
  | LocC (i : Z)
  | LocJmax (i : Z)
  | LocJ
  | LocK.

Inductive event : Type :=
  | Rd (l : loc)
  | Wr (l : loc).

Definition trace : Type := list event.

(** The locations a trace writes. *)
Definition writes (t : trace) : list loc :=
  omap (λ e, match e with Wr l => Some l | Rd _ => None end) t.

(** The locations a trace reads. *)
Definition reads (t : trace) : list loc :=
  omap (λ e, match e with Rd l => Some l | Wr _ => None end) t.

(** The accesses to the arrays in a trace, without those to the
    counters. *)
Definition is_counter (l : loc) : bool :=
  match l with
  | LocJ | LocK => true
  | _ => false
  end.

Definition array_events (t : trace) : trace :=
  filter (λ e, is_counter (match e with Rd l | Wr l => l end) = false) t.

(** ** The monad of the program: state, undefined behaviour, trace *)

Definition M (A : Type) : Type := mem → option (A * mem * trace).

Definition ret {A} (x : A) : M A := λ s, Some (x, s, []).

Definition bind {A B} (m : M A) (f : A → M B) : M B := λ s,
  match m s with
  | Some (x, s1, t1) =>
      match f x s1 with
      | Some (y, s2, t2) => Some (y, s2, t1 ++ t2)
      | None => None
      end
  | None => None
  end.

Definition fail {A} : M A := λ _, None.

Declare Scope prog_scope.
Delimit Scope prog_scope with prog.
Notation "x <- m ;; k" := (bind m (λ x, k))
  (at level 100, m at next level, right associativity) : prog_scope.
Notation "m ;;; k" := (bind m (λ _, k))
  (at level 100, right associativity) : prog_scope.
Local Open Scope prog_scope.

(** The final memory of a run, and its trace. *)
Definition exec {A} (m : M A) (s : mem) : option mem :=
  match m s with
  | Some (_, s', _) => Some s'
  | None => None
  end.

Definition trace_of {A} (m : M A) (s : mem) : option trace :=
  match m s with
  | Some (_, _, t) => Some t
  | None => None
  end.

Definition result_of {A} (m : M A) (s : mem) : option A :=
  match m s with
  | Some (x, _, _) => Some x
  | None => None
  end.

(** *** Array accesses *)

Definition load_a (i j : Z) : M float := λ s,
  match get2 (a s) i j with
  | Some v => Some (v, s, [Rd (LocA i j)])
  | None => None
  end.

Definition load_b (i j : Z) : M float := λ s,
  match get2 (b s) i j with
  | Some v => Some (v, s, [Rd (LocB i j)])
  | None => None
  end.

Definition load_c (i : Z) : M float := λ s,
  match get (c s) i with
  | Some v => Some (v, s, [Rd (LocC i)])
  | None => None
  end.

Definition load_jmax (i : Z) : M Z := λ s,
  match get (jmax s) i with
  | Some v => Some (v, s, [Rd (LocJmax i)])
  | None => None
  end.

Definition store_a (i j : Z) (v : float) : M unit := λ s,
  match get2 (a s) i j with
  | Some _ => Some (tt, Mem (put2 (a s) i j v) (b s) (c s) (jmax s), [Wr (LocA i j)])
  | None => None
  end.

Definition store_b (i j : Z) (v : float) : M unit := λ s,
  match get2 (b s) i j with
  | Some _ => Some (tt, Mem (a s) (put2 (b s) i j v) (c s) (jmax s), [Wr (LocB i j)])
  | None => None
  end.

Definition store_c (i : Z) (v : float) : M unit := λ s,
  match get (c s) i with
  | Some _ => Some (tt, Mem (a s) (b s) (put (c s) i v) (jmax s), [Wr (LocC i)])
  | None => None
  end.

Definition store_jmax (i : Z) (v : Z) : M unit := λ s,
  match get (jmax s) i with
  | Some _ => Some (tt, Mem (a s) (b s) (c s) (put (jmax s) i v), [Wr (LocJmax i)])
  | None => None
  end.

(** *** Loops *)

(** [n] iterations of [body], at [i], [i+1], ..., with the local
    variables the loop updates carried as [acc]. *)
Fixpoint fold_up {A} (n : nat) (i : Z) (body : Z → A → M A) (acc : A) : M A :=
  match n with
  | O => ret acc
  | S n' => acc' <- body i acc ;; fold_up n' (i + 1) body acc'
  end.

(** [for (i = lo; i < hi; i++) body], where the body leaves [i] and [hi]
    alone. *)
Definition fold_range {A} (lo hi : Z) (body : Z → A → M A) (acc : A) : M A :=
  fold_up (Z.to_nat (hi - lo)) lo body acc.

(** The same loop when its body updates no local variable. *)
Definition for_range (lo hi : Z) (body : Z → M unit) : M unit :=
  fold_range lo hi (λ i _, body i) tt.

(** [n] iterations of [body], at [j], [j-1], ... *)
Fixpoint for_dn (n : nat) (j : Z) (body : Z → M unit) : M unit :=
  match n with
  | O => ret tt
  | S n' => body j ;;; for_dn n' (j - 1) body
  end.

(** [for (j = hi; j > lo; j--) body], where the body leaves [j] and [lo]
    alone. *)
Definition for_down (hi lo : Z) (body : Z → M unit) : M unit :=
  for_dn (Z.to_nat (hi - lo)) hi body.

(** [for (; cond(j); j++) body], from [j], where the condition is
    evaluated again before every iteration; [fuel] bounds the number of
    evaluations of the condition. *)
Fixpoint for_cond (fuel : nat) (j : Z) (cond : Z → M bool) (body : Z → M unit)
  : M unit :=
  match fuel with
  | O => fail
  | S fuel' =>
      go <- cond j ;;
      if go : bool then body j ;;; for_cond fuel' (j + 1) cond body
      else ret tt
  end.

(** ** The values of the cells *)

(** The value of a cell, for indices inside the bounds. *)
Definition a_at (s : mem) (i j : Z) : float := default 0%float (get2 (a s) i j).
Definition b_at (s : mem) (i j : Z) : float := default 0%float (get2 (b s) i j).
Definition c_at (s : mem) (i : Z) : float := default 0%float (get (c s) i).
Definition jmax_at (s : mem) (i : Z) : Z := default 0 (get (jmax s) i).

(** ** Total correctness *)

(** [wp m s Q]: from [s] the computation [m] is defined, and its result,
    final memory and trace satisfy [Q]. *)
Definition wp {A} (m : M A) (s : mem) (Q : A → mem → trace → Prop) : Prop :=
  match m s with
  | Some (x, s', t) => Q x s' t
  | None => False
  end.

(** ** The parallel loops *)

(** *** What the threads of a team share *)

(** [loop1chunk] declares [int i,j] and [loop2chunk] declares
    [int i,j,k] at function scope, and the directive
    [omp parallel for schedule(runtime)] of each names no variable in a
    [private] clause.  The counter [i] of the loop under the directive
    is private to each thread; [j] and [k] are shared: the team has one
    [j] and one [k], next to the global arrays.  A counter holds no
    value ([None]) until it is assigned. *)
Record frame : Type := Frame {
  heap : mem;
  ctr_j : option Z;
  ctr_k : option Z
}.

(** One step of a thread: it changes what the team shares and records
    its accesses, or it has no defined behaviour ([None]). *)
Definition act (A : Type) : Type := frame → option (A * frame * trace).

Definition act_ret {A} (x : A) : act A := λ f, Some (x, f, []).

Definition act_bind {A B} (m : act A) (k : A → act B) : act B := λ f,
  match m f with
  | Some (x, f1, t1) =>
      match k x f1 with
      | Some (y, f2, t2) => Some (y, f2, t1 ++ t2)
      | None => None
      end
  | None => None
  end.

Declare Scope act_scope.
Delimit Scope act_scope with act.
Notation "x <- m ;; k" := (act_bind m (λ x, k))
  (at level 100, m at next level, right associativity) : act_scope.
Notation "m ;;; k" := (act_bind m (λ _, k))
  (at level 100, right associativity) : act_scope.

(** An access to the global arrays, inside a step. *)
Definition on_heap {A} (m : M A) : act A := λ f,
  match m (heap f) with
  | Some (x, s', t) => Some (x, Frame s' (ctr_j f) (ctr_k f), t)
  | None => None
  end.

(** The accesses to the shared counters. *)
Definition get_j : act Z := λ f,
  match ctr_j f with
  | Some v => Some (v, f, [Rd LocJ])
  | None => None
  end.

Definition set_j (v : Z) : act unit := λ f,
  Some (tt, Frame (heap f) (Some v) (ctr_k f), [Wr LocJ]).

Definition get_k : act Z := λ f,
  match ctr_k f with
  | Some v => Some (v, f, [Rd LocK])
  | None => None
  end.

Definition set_k (v : Z) : act unit := λ f,
  Some (tt, Frame (heap f) (ctr_j f) (Some v), [Wr LocK]).

(** *** Threads and teams *)

(** A thread of the team: the outer iterations it still has to run, in
    the order in which it runs them, the first being the one it is in;
    and the place of its next step in the body of the outer loop. *)
Record thread (PC : Type) : Type := Thread {
  rows : list Z;
  at_pc : PC
}.
Arguments Thread {PC} _ _.
Arguments rows {PC} _.
Arguments at_pc {PC} _.

(** The team in the middle of a parallel loop: its threads, what they
    share, and the accesses made so far, each with the outer index [i]
    of the iteration that made it. *)
Record config (PC : Type) : Type := Config {
  team : list (thread PC);
  shared : frame;
  accesses : list (Z * event)
}.
Arguments Config {PC} _ _ _.
Arguments team {PC} _.
Arguments shared {PC} _.
Arguments accesses {PC} _.

(** What the OpenMP runtime decides for one parallel loop: how many
    threads the team has besides the one that meets the directive,
    which thread runs which outer iteration (the choice that
    [schedule(runtime)] leaves to the environment; the number [owner i]
    is taken modulo the size of the team), and in which order the
    threads take their steps. *)
Record execution : Type := Execution {
  others : nat;
  owner : Z → nat;
  order : list nat
}.

Definition team_size (E : execution) : nat := S (others E).

(** The outer iterations of [lo], ..., [hi - 1] that thread [t] runs;
    every schedule kind hands a thread its iterations in increasing
    order. *)
Definition rows_of (E : execution) (lo hi : Z) (t : nat) : list Z :=
  filter (λ i, (owner E i `mod` team_size E)%nat = t) (seqZ lo (hi - lo)).

Section Team.

Context {PC : Type}.

(** The body of the outer loop, cut into steps: [body i p] is the step
    at the place [p] of the iteration [i], and gives the place of the
    next step, or [None] when the iteration is over.  [entry] is the
    place where an iteration starts. *)
Variable body : Z → PC → act (option PC).
Variable entry : PC.

(** Thread [t] takes one step.  A step offered to a thread that has
    run all its iterations, or to no thread of the team, is lost. *)
Definition thread_step (t : nat) (cf : config PC) : option (config PC) :=
  match team cf !! t with
  | Some (Thread (i :: rest) p) =>
      match body i p (shared cf) with
      | Some (next, f', evs) =>
          let th' :=
            match next with
            | Some p' => Thread (i :: rest) p'
            | None => Thread rest entry
            end in
          Some (Config (<[t := th']> (team cf)) f'
                       (accesses cf ++ (pair i <$> evs)))
      | None => None
      end
  | _ => Some cf
  end.

(** The steps of the team, in the order the runtime gives. *)
Fixpoint run (steps : list nat) (cf : config PC) : option (config PC) :=
  match steps with
  | [] => Some cf
  | t :: steps' =>
      match thread_step t cf with
      | Some cf' => run steps' cf'
      | None => None
      end
  end.

(** Every thread has run all its iterations. *)
Definition finished (cf : config PC) : bool :=
  forallb (λ th, match rows th with [] => true | _ :: _ => false end) (team cf).

(** The team at the directive: every thread has its share of the outer
    iterations before it, and the counters hold no value yet. *)
Definition fork (E : execution) (lo hi : Z) (s : mem) : config PC :=
  Config ((λ t, Thread (rows_of E lo hi t) entry) <$> seq 0 (team_size E))
         (Frame s None None) [].

(** [#pragma omp parallel for schedule(runtime)] on
    [for (i = lo; i < hi; i++)]: the team runs the steps of the
    execution [E], and the loop is left when every thread has run all
    its iterations.  An order of steps that stops before that is no
    execution of the loop and gives no result either. *)
Definition parallel_for_log (E : execution) (lo hi : Z) (s : mem)
  : option (mem * list (Z * event)) :=
  match run (order E) (fork E lo hi s) with
  | Some cf => if finished cf then Some (heap (shared cf), accesses cf) else None
  | None => None
  end.

Definition parallel_for (E : execution) (lo hi : Z) : M unit := λ s,
  match parallel_for_log E lo hi s with
  | Some (s', l) => Some (tt, s', l.*2)
  | None => None
  end.

End Team.

(** The locations written by the outer iteration [i], in a log. *)
Definition writes_of (i : Z) (l : list (Z * event)) : list loc :=
  writes (filter (λ e, e.1 = i) l).*2.

(** Thread [0], taking every step, brings the team from [cf] to
    [cf']. *)
Definition reaches {PC} (body : Z → PC → act (option PC)) (entry : PC)
    (cf cf' : config PC) : Prop :=
  ∃ n, run body entry (replicate n 0%nat) cf = Some cf'.

(** The places in the body of the outer loop of [loop1chunk]: the three
    parts of [for (j=N-1; j>i; j--)] and the statement it repeats. *)
Inductive pc1 : Type := L1_init | L1_cond | L1_stmt | L1_next.

(** The places in the body of the outer loop of [loop2chunk]: the parts
    of [for (j=0; j < jmax[i]; j++)], those of [for (k=0; k<j; k++)],
    and the statement. *)
Inductive pc2 : Type :=
  | L2_j_init | L2_j_cond | L2_j_next
  | L2_k_init | L2_k_cond | L2_k_next
  | L2_stmt.

(** Two executions: the thread that meets the directive alone, taking
    [n] steps; and a team of two, the even rows with thread [0] and the
    odd ones with thread [1], taking the steps [steps]. *)
Definition one_thread (n : nat) : execution :=
  Execution 0 (λ _, 0%nat) (replicate n 0%nat).

Definition two_threads (steps : list nat) : execution :=
  Execution 1 (λ i, Z.to_nat i) steps.

(** A team of three, row [i] with thread [i mod 3]. *)
Definition three_threads (steps : list nat) : execution :=
  Execution 2 (λ i, Z.to_nat i) steps.

(** ** A memory and two stand-ins to run the program on *)

(** A memory of the declared shape: zeros in [a], [b] and [c], the row
    bound [1] in every entry of [jmax]. *)
Definition mem0 : mem :=
  Mem (replicate (Z.to_nat N) (replicate (Z.to_nat N) 0%float))
      (replicate (Z.to_nat N) (replicate (Z.to_nat N) 0%float))
      (replicate (Z.to_nat N) 0%float)
      (replicate (Z.to_nat N) 1).

(** Two functions on doubles to put in the place of [cos] and [log],
    their first Taylor terms at [0] and at [1]. *)
Definition cos_approx (x : float) : float := (1 - x * x / 2)%float.
Definition log_approx (x : float) : float := (x - 1)%float.

(** ** The program *)

Section Program.

(** [cos] and [log] of the C mathematical library. *)
Variables cos log : float → float.

(** *** Kernel A *)

(** The statement [a[i][j] += cos(b[i][j])], where [ja] is the value
    read for the [j] of [a[i][j]] and [jb] the one read for the [j] of
    [b[i][j]]. *)
Definition loop1_stmt (i ja jb : Z) : M unit :=
  x <- load_a i ja ;;
  y <- load_b i jb ;;
  store_a i ja (x + cos y)%float.

(** The body of the outer loop of [loop1chunk], for the outer index
    [i], step by step.  The counter [j] is the shared one: every step
    reads it, or writes it, where the source names it. *)
Definition loop1_body (i : Z) (p : pc1) : act (option pc1) :=
  match p with
  | L1_init =>
      (set_j (N - 1) ;;;
       act_ret (Some L1_cond))%act
  | L1_cond =>
      (j <- get_j ;;
       act_ret (if j >? i then Some L1_stmt else None))%act
  | L1_stmt =>
      (ja <- get_j ;;
       jb <- get_j ;;
       on_heap (loop1_stmt i ja jb) ;;;
       act_ret (Some L1_next))%act
  | L1_next =>
      (j <- get_j ;;
       set_j (j - 1) ;;;
       act_ret (Some L1_cond))%act
  end.

Definition loop1chunk (E : execution) (lo hi : Z) : M unit :=
  parallel_for loop1_body L1_init E lo hi.

(** The same call, with the log of its accesses by outer iteration. *)
Definition loop1chunk_log (E : execution) (lo hi : Z) (s : mem)
  : option (mem * list (Z * event)) :=
  parallel_for_log loop1_body L1_init E lo hi s.

(** *** Kernel B *)

(** The statement [c[i] += (k+1) * log (b[i][j]) * rN2]. *)
Definition loop2_stmt (rN2 : float) (i j k : Z) : M unit :=
  x <- load_c i ;;
  y <- load_b i j ;;
  store_c i (x + of_int (k + 1) * log y * rN2)%float.

(** The body of the outer loop of [loop2chunk], for the outer index
    [i], step by step, with the shared counters [j] and [k]; [rN2] is
    assigned once, before the loop, and only read here. *)
Definition loop2_body (rN2 : float) (i : Z) (p : pc2) : act (option pc2) :=
  match p with
  | L2_j_init =>
      (set_j 0 ;;;
       act_ret (Some L2_j_cond))%act
  | L2_j_cond =>
      (j <- get_j ;;
       jm <- on_heap (load_jmax i) ;;
       act_ret (if j <? jm then Some L2_k_init else None))%act
  | L2_k_init =>
      (set_k 0 ;;;
       act_ret (Some L2_k_cond))%act
  | L2_k_cond =>
      (k <- get_k ;;
       j <- get_j ;;
       act_ret (if k <? j then Some L2_stmt else Some L2_j_next))%act
  | L2_stmt =>
      (k <- get_k ;;
       j <- get_j ;;
       on_heap (loop2_stmt rN2 i j k) ;;;
       act_ret (Some L2_k_next))%act
  | L2_k_next =>
      (k <- get_k ;;
       set_k (k + 1) ;;;
       act_ret (Some L2_k_cond))%act
  | L2_j_next =>
      (j <- get_j ;;
       set_j (j + 1) ;;;
       act_ret (Some L2_j_cond))%act
  end.

Definition rN2_val : float := (1 / of_int (N * N))%float.

Definition loop2chunk (E : execution) (lo hi : Z) : M unit :=
  let rN2 := rN2_val in
  parallel_for (loop2_body rN2) L2_j_init E lo hi.

Definition loop2chunk_log (E : execution) (lo hi : Z) (s : mem)
  : option (mem * list (Z * event)) :=
  parallel_for_log (loop2_body rN2_val) L2_j_init E lo hi s.

(** *** Initialisation *)

Definition init1 : M unit :=
  for_range 0 N (λ i,
    for_range 0 N (λ j,
      store_a i j 0%float ;;;
      store_b i j (c3142 * of_int (i + j))%float)).

(** The divisor of the [%] of [init2]. *)
Definition jmax_divisor (i : Z) : Z := 3 * (i ÷ 30) + 1.

Definition init2 : M unit :=
  for_range 0 N (λ i,
    match c_rem i (jmax_divisor i) with
    | None => fail
    | Some expr =>
        (if expr =? 0 then store_jmax i N else store_jmax i 1) ;;;
        store_c i 0%float
    end) ;;;
  for_range 0 N (λ i,
    for_range 0 N (λ j,
      store_b i j (of_int (i * j + 1) / of_int (N * N))%float)).

(** *** Checksums *)

(** [valid1] and [valid2] print their sum; here they return it. *)
Definition valid1 : M float :=
  fold_range 0 N (λ i suma,
    fold_range 0 N (λ j suma,
      x <- load_a i j ;; ret (suma + x)%float) suma) 0%float.

Definition valid2 : M float :=
  fold_range 0 N (λ i sumc,
    x <- load_c i ;; ret (sumc + x)%float) 0%float.

(** *** The driver *)

(** [main], without the timing and the printing: the two checksums.
    Every call of a kernel is a parallel loop of its own; [EA r] and
    [EB r] are the executions of the calls of repetition [r]. *)
Definition main (EA EB : Z → execution) : M (float * float) :=
  init1 ;;;
  for_range 0 reps (λ r, loop1chunk (EA r) 0 N) ;;;
  suma <- valid1 ;;
  init2 ;;;
  for_range 0 reps (λ r, loop2chunk (EB r) 0 N) ;;;
  sumc <- valid2 ;;
  ret (suma, sumc).

(** *** The kernels in the words of the specification *)

(** The specification describes [runKernelA(lo, hi)] and
    [runKernelB(lo, hi)] as loops over the outer index in which every
    outer iteration has inner counters of its own.  These two
    definitions follow its words, to be compared with [loop1chunk] and
    [loop2chunk] above. *)
Definition runKernelA_row (i : Z) : M unit :=
  for_down (N - 1) i (λ j, loop1_stmt i j j).

Definition runKernelA (lo hi : Z) : M unit :=
  for_range lo hi runKernelA_row.

(** The inner loop on [j] reads its bound [jmax[i]] before every
    iteration.  An iteration at [j >= 1] reads [b[i][j]], so that at most
    [N] iterations are defined and [N + 1] evaluations of the condition
    are enough. *)
Definition runKernelB_fuel : nat := S (Z.to_nat N).

Definition runKernelB_row (rN2 : float) (i : Z) : M unit :=
  for_cond runKernelB_fuel 0
    (λ j, jm <- load_jmax i ;; ret (j <? jm))
    (λ j, for_range 0 j (λ k, loop2_stmt rN2 i j k)).

Definition runKernelB (lo hi : Z) : M unit :=
  for_range lo hi (runKernelB_row rN2_val).

(** *** What the specification's kernels touch *)

(** The accesses of the outer iteration [i] of Kernel A. *)
Definition ev_loop1 (i : Z) (e : event) : Prop :=
  ∃ j, i < j < N ∧ (e = Rd (LocA i j) ∨ e = Rd (LocB i j) ∨ e = Wr (LocA i j)).

(** The accesses of the outer iteration [i] of Kernel B, when [jmax[i]]
    is [jm]. *)
Definition ev_loop2 (jm i : Z) (e : event) : Prop :=
  e = Rd (LocJmax i) ∨ e = Rd (LocC i) ∨ e = Wr (LocC i) ∨
  ∃ j, 0 < j < jm ∧ e = Rd (LocB i j).

(** *** What the kernels compute, in the words of the specification *)

(** Kernel A on the rows selected by [sel]: [a[i][j] += cos(b[i][j])]
    for [i < j < N], nothing else changes. *)
Definition kernelA_cell (sel : Z → Prop) `{∀ i, Decision (sel i)}
    (s : mem) (i j : Z) : float :=
  if decide (sel i ∧ i < j < N) then (a_at s i j + cos (b_at s i j))%float
  else a_at s i j.

(** The accumulation of Kernel B on one row: from [c0], add
    [(k+1) * ln(brow j) * (1/N²)] for [j] in [0, jm) and [k] in [0, j),
    in this order; [brow j] stands for [b[i][j]] and [jm] for
    [jmax[i]]. *)
Definition accum_row (brow : Z → float) (jm : Z) (c0 : float) : float :=
  foldl (λ acc j,
    foldl (λ acc k, (acc + of_int (k + 1) * log (brow j) * rN2_val)%float)
      acc (seqZ 0 j))
    c0 (seqZ 0 jm).

(** Kernel B on row [i] of the memory [s]. *)
Definition kernelB_row (s : mem) (i : Z) (c0 : float) : float :=
  accum_row (b_at s i) (jmax_at s i) c0.

Definition kernelB_cell (sel : Z → Prop) `{∀ i, Decision (sel i)}
    (s : mem) (i : Z) : float :=
  if decide (sel i) then kernelB_row s i (c_at s i) else c_at s i.

(** *** What the other routines compute *)

(** The value [init2] gives to [jmax[i]], in the words of the
    specification, with the mathematical quotient and remainder. *)
Definition jmax_spec (i : Z) : Z :=
  if decide (i `mod` (3 * (i `div` 30) + 1) = 0) then N else 1.

(** The value [init1] gives to [b[i][j]], and the one [init2] gives. *)
Definition b_init1 (i j : Z) : float := (c3142 * of_int (i + j))%float.
Definition b_init2 (i j : Z) : float := (of_int (i * j + 1) / of_int (N * N))%float.

(** The sums [valid1] and [valid2] compute, in their order: the first
    [n] cells of row [i] added to [acc], the first [n] rows of [a], the
    first [n] cells of [c]. *)
Definition row_sum (s : mem) (i : Z) (acc : float) (n : Z) : float :=
  foldl (λ acc j, (acc + a_at s i j)%float) acc (seqZ 0 n).

Definition sum_a_upto (s : mem) (n : Z) : float :=
  foldl (λ acc i, row_sum s i acc N) 0%float (seqZ 0 n).

Definition sum_c_upto (s : mem) (n : Z) : float :=
  foldl (λ acc i, (acc + c_at s i)%float) 0%float (seqZ 0 n).

Abbreviation sum_a s := (sum_a_upto s N).
Abbreviation sum_c s := (sum_c_upto s N).

(** *** Positivity of the cells [init2] gives to [b] *)



(** ** The report of the OpenMP configuration *)

(** The values of the enumeration [omp_sched_t] that the source names;
    the OpenMP header, which declares them, is not part of the
    repository. *)
Record omp_kinds : Type := OmpKinds {
  omp_sched_static : Z;
  omp_sched_dynamic : Z;
  omp_sched_guided : Z;
  omp_sched_auto : Z
}.

(** The labels of a [switch] are distinct. *)
Definition kinds_distinct (K : omp_kinds) : Prop :=
  NoDup [omp_sched_static K; omp_sched_dynamic K;
         omp_sched_guided K; omp_sched_auto K].

(** The values the OpenMP specification gives to the four kinds. *)
Definition omp_kinds_spec : omp_kinds := OmpKinds 1 2 3 4.

Definition omp_sched_to_cstr (K : omp_kinds) (k : Z) : string :=
  if k =? omp_sched_static K then "static"
  else if k =? omp_sched_dynamic K then "dynamic"
  else if k =? omp_sched_guided K then "guided"
  else if k =? omp_sched_auto K then "auto"
  else "unknown".

(** What the OpenMP runtime answers to [omp_get_schedule],
    [omp_get_max_threads] and [omp_get_num_procs]. *)
Record omp_runtime : Type := OmpRuntime {
  rt_kind : Z;
  rt_chunk : Z;
  rt_max_threads : Z;
  rt_num_procs : Z
}.

(** The conversion [%d] of [printf]. *)
Definition fmt_d (z : Z) : string := NilEmpty.string_of_int (Z.to_int z).

Definition newline : ascii := ascii_of_nat 10.

(** [print_omp_config] prints one line; here it returns the line. *)
Definition print_omp_config (K : omp_kinds) (rt : omp_runtime) : string :=
  "OMP config: threads=" +:+ fmt_d (rt_max_threads rt) +:+
  " procs=" +:+ fmt_d (rt_num_procs rt) +:+
  " schedule=" +:+ omp_sched_to_cstr K (rt_kind rt) +:+
  " chunk=" +:+ fmt_d (rt_chunk rt) +:+ String newline "".

(** Whether the character [c] occurs in a string. *)
Fixpoint has_char (c : ascii) (s : string) : bool :=
  match s with
  | EmptyString => false
  | String x s' => Ascii.eqb c x || has_char c s'
  end.

(** *** The work of Kernel B *)

(** The number of updates of a row of bound [jm], and of the rows of a
    range. *)
Definition row_work (jm : Z) : Z := Z.max 0 jm * (Z.max 0 jm - 1) / 2.

Definition chunk_work (s : mem) (lo hi : Z) : Z :=
  foldl (λ acc i, acc + row_work (jmax_at s i)) 0 (seqZ lo (hi - lo)).

(** *** More data to run the program on *)

(** A second memory of the declared shape, with other contents: ones in
    [a], [b] and [c], the row bound [N] in every entry of [jmax]. *)
Definition mem1 : mem :=
  Mem (replicate (Z.to_nat N) (replicate (Z.to_nat N) 1%float))
      (replicate (Z.to_nat N) (replicate (Z.to_nat N) 1%float))
      (replicate (Z.to_nat N) 1%float)
      (replicate (Z.to_nat N) N).

(** A third one, on which Kernel B has three terms to add in every
    row: zeros in [a] and [c], twos in [b], the row bound [3] in every
    entry of [jmax]. *)
Definition mem2 : mem :=
  Mem (replicate (Z.to_nat N) (replicate (Z.to_nat N) 0%float))
      (replicate (Z.to_nat N) (replicate (Z.to_nat N) 2%float))
      (replicate (Z.to_nat N) 0%float)
      (replicate (Z.to_nat N) 3).

(** The memory [init1] leaves when it starts from [mem0], and the one
    [init2] leaves. *)
Definition mem_init1 : mem :=
  Mem (a mem0) ((λ i, b_init1 i <$> seqZ 0 N) <$> seqZ 0 N) (c mem0) (jmax mem0).

Definition mem_init2 : mem :=
  Mem (a mem0) ((λ i, b_init2 i <$> seqZ 0 N) <$> seqZ 0 N) (c mem0)
      (jmax_spec <$> seqZ 0 N).

(** Whether a run has a result. *)
Definition defined {A} (r : option A) : bool :=
  match r with
  | Some _ => true
  | None => false
  end.

(** The locations the outer iteration [i] writes in a run of a parallel
    loop. *)
Definition writes_in (i : Z) (r : option (mem * list (Z * event)))
  : option (list loc) :=
  (λ x, writes_of i x.2) <$> r.

(** *** Four orders of steps for a team of two *)

(** [loop1chunk(0, 2)]: thread [0] has row 0 and thread [1] row 1.
    Each assigns [j = N-1] and passes its test; from then on they take
    turns, each going through the assignment, [j--] and the test, with
    rounds enough to reach the end of both rows. *)
Definition steps_lockstep : list nat :=
  [0; 0; 1; 1]%nat ++ concat (replicate 365 [0; 0; 0; 1; 1; 1]%nat).

(** [loop1chunk(726, 728)]: thread [0] has row 726 and thread [1] row
    727.  Each assigns [j = N-1] and passes its test before the other
    goes on; then they take turns, each decrementing the counter the
    other one reads. *)
Definition steps_skip : list nat := [0; 0; 1; 1; 0; 0; 1; 1; 0; 1]%nat.

(** [loop1chunk(727, 729)]: thread [1] has row 727 and thread [0] row
    728.  Thread [1] goes through [j = 728] of its row; then thread [0]
    starts row 728 and assigns [j = N-1] again, finds [j > i] false and
    stops; thread [1] finds [j = 728] once more. *)
Definition steps_twice : list nat := [1; 1; 1; 1; 0; 0; 1; 1; 1; 1]%nat.

(** [loop2chunk(727, 729)]: thread [1] has row 727 and thread [0] row
    728.  Thread [0] stops before the test [k<j] at [j = 0]; thread [1]
    runs its row as far as [j++]; thread [0] goes on. *)
Definition steps_light : list nat :=
  [0; 0; 0; 1; 1; 1; 1; 1; 0; 0; 0; 0; 0; 0; 1]%nat.

(** *** An order of steps for a team of three *)

(** [loop1chunk(0, 3)]: thread [i] has row [i].  Threads [1] and [2]
    each go through [j = 728] of their row and stop before [j--];
    thread [0] runs row 0 down to [j = 1] and passes the test [1 > 0];
    threads [1] and [2] decrement [j]; thread [0] goes on to its
    assignment. *)
Definition steps_below : list nat :=
  [1; 1; 1; 2; 2; 2]%nat ++ replicate 2183 0%nat ++ [1; 2; 0]%nat.

(** A runtime with eight threads on eight processors and the schedule
    [dynamic] with chunks of four. *)
Definition rt_example : omp_runtime := OmpRuntime 2 4 8 8.

(** ** Proof automation *)

(** Closes the goals on the value of a cell after a case analysis on
    the index tests. *)
Ltac cells :=
  repeat case_decide;
  first [ done | lia | exfalso; lia
        | destruct_and?; simplify_eq; first [done | lia | exfalso; lia]
        | idtac ].

(** The cases of an event found in a list of events that is written
    out. *)
Ltac event_cases Hin :=
  repeat (apply elem_of_cons in Hin as [Hin|Hin]; [try discriminate Hin|]);
  try (by apply elem_of_nil in Hin).

(** ** The monad and its loops *)

Lemma wp_ret {A} (x : A) s Q : Q x s [] → wp (ret x) s Q.
Proof. done. Qed.

Lemma wp_bind {A B} (m : M A) (f : A → M B) s Q :
  wp m s (λ x s1 t1, wp (f x) s1 (λ y s2 t2, Q y s2 (t1 ++ t2))) →
  wp (bind m f) s Q.
Proof.
  unfold wp, bind. destruct (m s) as [[[x s1] t1]|]; [|done].
  by destruct (f x s1) as [[[y s2] t2]|].
Qed.

Lemma wp_mono {A} (m : M A) s (Q Q' : A → mem → trace → Prop) :
  wp m s Q → (∀ x s' t, Q x s' t → Q' x s' t) → wp m s Q'.
Proof. unfold wp. destruct (m s) as [[[x s1] t1]|]; [|done]. eauto. Qed.

Lemma wp_run {A} (m : M A) s Q :
  wp m s Q ↔ ∃ x s' t, m s = Some (x, s', t) ∧ Q x s' t.
Proof.
  unfold wp. destruct (m s) as [[[x s1] t1]|]; split.
  - eauto.
  - by intros (? & ? & ? & [= -> -> ->] & ?).
  - done.
  - by intros (? & ? & ? & ? & ?).
Qed.

Lemma wp_fold_up {A} (body : Z → A → M A) (I : Z → A → mem → trace → Prop)
    (hi : Z) n : ∀ i acc s t0 Q,
  i + Z.of_nat n = hi →
  I i acc s t0 →
  (∀ k x s' t, i ≤ k < hi → I k x s' t →
     wp (body k x) s' (λ y s'' t', I (k + 1) y s'' (t ++ t'))) →
  (∀ x s' t, I hi x s' t → Q x s' t) →
  wp (fold_up n i body acc) s (λ y s' t', Q y s' (t0 ++ t')).
Proof.
  induction n as [|n IH]; intros i acc s t0 Q Hn HI Hbody HQ; simpl.
  - apply wp_ret. rewrite app_nil_r. apply HQ.
    by replace hi with i by lia.
  - apply wp_bind. eapply wp_mono; [apply (Hbody i acc s t0); [lia|done]|].
    intros y s1 t1 HI1; simpl in HI1.
    eapply wp_mono.
    + apply (IH (i + 1) y s1 (t0 ++ t1) Q); [lia|done| |done].
      intros k x s' t Hk. apply Hbody. lia.
    + intros z s2 t2. by rewrite app_assoc.
Qed.

Lemma wp_fold_range {A} lo hi (body : Z → A → M A) acc s
    (I : Z → A → mem → trace → Prop) Q :
  lo ≤ hi →
  I lo acc s [] →
  (∀ k x s' t, lo ≤ k < hi → I k x s' t →
     wp (body k x) s' (λ y s'' t', I (k + 1) y s'' (t ++ t'))) →
  (∀ x s' t, I hi x s' t → Q x s' t) →
  wp (fold_range lo hi body acc) s Q.
Proof.
  intros Hle HI Hbody HQ. unfold fold_range.
  eapply wp_mono.
  - apply (wp_fold_up body I hi _ lo acc s [] Q); [lia|done..].
  - done.
Qed.

Lemma wp_for_range lo hi (body : Z → M unit) s
    (I : Z → mem → trace → Prop) Q :
  lo ≤ hi →
  I lo s [] →
  (∀ k s' t, lo ≤ k < hi → I k s' t →
     wp (body k) s' (λ _ s'' t', I (k + 1) s'' (t ++ t'))) →
  (∀ s' t, I hi s' t → Q tt s' t) →
  wp (for_range lo hi body) s Q.
Proof.
  intros Hle HI Hbody HQ. unfold for_range.
  apply (wp_fold_range lo hi _ tt s (λ k _ s' t, I k s' t)); [done..| |].
  - intros k [] s' t Hk HIk. by apply Hbody.
  - intros [] s' t. apply HQ.
Qed.

Lemma wp_for_dn (body : Z → M unit) (I : Z → mem → trace → Prop)
    (lo : Z) n : ∀ j s t0 Q,
  j - Z.of_nat n = lo →
  I j s t0 →
  (∀ k s' t, lo < k ≤ j → I k s' t →
     wp (body k) s' (λ _ s'' t', I (k - 1) s'' (t ++ t'))) →
  (∀ s' t, I lo s' t → Q tt s' t) →
  wp (for_dn n j body) s (λ y s' t', Q y s' (t0 ++ t')).
Proof.
  induction n as [|n IH]; intros j s t0 Q Hn HI Hbody HQ; simpl.
  - apply wp_ret. rewrite app_nil_r. apply HQ.
    by replace lo with j by lia.
  - apply wp_bind. eapply wp_mono; [apply (Hbody j s t0); [lia|done]|].
    intros [] s1 t1 HI1; simpl in HI1.
    eapply wp_mono.
    + apply (IH (j - 1) s1 (t0 ++ t1) Q); [lia|done| |done].
      intros k s' t Hk. apply Hbody. lia.
    + intros z s2 t2. by rewrite app_assoc.
Qed.

Lemma wp_for_down hi lo (body : Z → M unit) s
    (I : Z → mem → trace → Prop) Q :
  lo ≤ hi →
  I hi s [] →
  (∀ k s' t, lo < k ≤ hi → I k s' t →
     wp (body k) s' (λ _ s'' t', I (k - 1) s'' (t ++ t'))) →
  (∀ s' t, I lo s' t → Q tt s' t) →
  wp (for_down hi lo body) s Q.
Proof.
  intros Hle HI Hbody HQ. unfold for_down.
  eapply wp_mono.
  - apply (wp_for_dn body I lo _ hi s [] Q); [lia|done..].
  - done.
Qed.

Lemma wp_for_cond_fuel (cond : Z → M bool) (body : Z → M unit)
    (I J : Z → mem → trace → Prop) (hi : Z) Q fuel : ∀ j s t0,
  j ≤ hi →
  (Z.to_nat (hi - j) < fuel)%nat →
  I j s t0 →
  (∀ k s' t, j ≤ k ≤ hi → I k s' t →
     wp (cond k) s' (λ go s'' t',
       go = (k <? hi) ∧
       if go then J k s'' (t ++ t') else Q tt s'' (t ++ t'))) →
  (∀ k s' t, j ≤ k < hi → J k s' t →
     wp (body k) s' (λ _ s'' t', I (k + 1) s'' (t ++ t'))) →
  wp (for_cond fuel j cond body) s (λ y s' t', Q y s' (t0 ++ t')).
Proof.
  induction fuel as [|fuel IH]; intros j s t0 Hle Hfuel HI Hcond Hbody; [lia|].
  simpl. apply wp_bind.
  eapply wp_mono; [apply (Hcond j s t0); [lia|done]|].
  intros go s1 t1 [-> Hgo]; simpl in Hgo.
  destruct (j <? hi) eqn:Hlt.
  - apply Z.ltb_lt in Hlt. apply wp_bind.
    eapply wp_mono; [apply (Hbody j s1 (t0 ++ t1)); [lia|done]|].
    intros [] s2 t2 HI2; simpl in HI2.
    eapply wp_mono.
    + apply (IH (j + 1) s2 ((t0 ++ t1) ++ t2)); [lia|lia|done| |].
      * intros k s' t Hk. apply Hcond. lia.
      * intros k s' t Hk. apply Hbody. lia.
    + intros z s3 t3; simpl. by rewrite !app_assoc.
  - apply wp_ret. by rewrite app_nil_r.
Qed.

Lemma wp_for_cond fuel j (cond : Z → M bool) (body : Z → M unit) s
    (I J : Z → mem → trace → Prop) (hi : Z) Q :
  j ≤ hi →
  (Z.to_nat (hi - j) < fuel)%nat →
  I j s [] →
  (∀ k s' t, j ≤ k ≤ hi → I k s' t →
     wp (cond k) s' (λ go s'' t',
       go = (k <? hi) ∧
       if go then J k s'' (t ++ t') else Q tt s'' (t ++ t'))) →
  (∀ k s' t, j ≤ k < hi → J k s' t →
     wp (body k) s' (λ _ s'' t', I (k + 1) s'' (t ++ t'))) →
  wp (for_cond fuel j cond body) s Q.
Proof.
  intros Hle Hfuel HI Hcond Hbody.
  eapply wp_mono.
  - by apply (wp_for_cond_fuel cond body I J hi Q fuel j s []).
  - done.
Qed.

(** ** Arrays *)

Lemma get_is_Some {A} (l : list A) i :
  is_Some (get l i) ↔ 0 ≤ i < Z.of_nat (length l).
Proof.
  unfold get. destruct (Z.ltb_spec i 0).
  - split; [by intros []|lia].
  - rewrite lookup_lt_is_Some. lia.
Qed.

Lemma get_put {A} (l : list A) i v k :
  0 ≤ i < Z.of_nat (length l) →
  get (put l i v) k = if decide (k = i) then Some v else get l k.
Proof.
  intros Hi. unfold get, put. destruct (Z.ltb_spec k 0).
  - rewrite decide_False by lia. done.
  - destruct (decide (k = i)) as [->|Hne].
    + apply list_lookup_insert_eq. lia.
    + apply list_lookup_insert_ne. lia.
Qed.

Lemma length_put {A} (l : list A) i v : length (put l i v) = length l.
Proof. apply length_insert. Qed.

Lemma get_ext {A} (l1 l2 : list A) :
  (∀ i, get l1 i = get l2 i) → l1 = l2.
Proof.
  intros H. apply list_eq. intros n. specialize (H (Z.of_nat n)).
  unfold get in H. destruct (Z.ltb_spec (Z.of_nat n) 0); [lia|].
  by rewrite Nat2Z.id in H.
Qed.

Lemma get_default_ext {A} (d : A) (l1 l2 : list A) n :
  length l1 = n → length l2 = n →
  (∀ i, 0 ≤ i < Z.of_nat n → default d (get l1 i) = default d (get l2 i)) →
  l1 = l2.
Proof.
  intros H1 H2 H. apply get_ext. intros i.
  destruct (decide (0 ≤ i < Z.of_nat n)) as [Hi|Hi].
  - specialize (H i Hi).
    destruct (proj2 (get_is_Some l1 i)) as [x1 E1]; [lia|].
    destruct (proj2 (get_is_Some l2 i)) as [x2 E2]; [lia|].
    rewrite E1, E2 in *. simpl in H. by subst.
  - destruct (get l1 i) eqn:E1.
    { assert (is_Some (get l1 i)) as ?%get_is_Some by eauto. lia. }
    destruct (get l2 i) eqn:E2; [|done].
    assert (is_Some (get l2 i)) as ?%get_is_Some by eauto. lia.
Qed.

Lemma matrix_ok_row m i r : matrix_ok m → get m i = Some r → length r = Z.to_nat N.
Proof.
  intros [_ Hrows] Hget. unfold get in Hget.
  destruct (i <? 0); [done|].
  rewrite Forall_lookup in Hrows. by eapply Hrows.
Qed.

Lemma matrix_ok_get2 m i j :
  matrix_ok m → 0 ≤ i < N → 0 ≤ j < N → is_Some (get2 m i j).
Proof.
  intros Hm Hi Hj. unfold get2.
  destruct (proj2 (get_is_Some m i)) as [r Hr]; [destruct Hm; lia|].
  rewrite Hr. apply get_is_Some.
  rewrite (matrix_ok_row m i r) by done. lia.
Qed.

Lemma matrix_ok_put2 m i j v : matrix_ok m → matrix_ok (put2 m i j v).
Proof.
  intros Hm. unfold put2. destruct (get m i) as [r|] eqn:Hr; [|done].
  destruct Hm as [Hlen Hrows]. split.
  - by rewrite length_put.
  - unfold put at 1. apply Forall_insert; [done|].
    rewrite length_put. by apply (matrix_ok_row m i r).
Qed.

Lemma get2_put2 m i j (v : float) i' j' :
  matrix_ok m → 0 ≤ i < N → 0 ≤ j < N →
  get2 (put2 m i j v) i' j' =
    if decide (i' = i ∧ j' = j) then Some v else get2 m i' j'.
Proof.
  intros Hm Hi Hj. unfold get2, put2.
  destruct (proj2 (get_is_Some m i)) as [r Hr]; [destruct Hm; lia|].
  rewrite Hr. rewrite get_put by (destruct Hm; lia).
  destruct (decide (i' = i)) as [->|Hne].
  - rewrite Hr. rewrite get_put by (rewrite (matrix_ok_row m i r) by done; lia).
    destruct (decide (j' = j)) as [->|Hne].
    + by rewrite decide_True.
    + rewrite decide_False; [done|]. by intros [_ ?].
  - rewrite decide_False; [done|]. by intros [? _].
Qed.

Lemma matrix_ext m1 m2 :
  matrix_ok m1 → matrix_ok m2 →
  (∀ i j, 0 ≤ i < N → 0 ≤ j < N →
     default 0%float (get2 m1 i j) = default 0%float (get2 m2 i j)) →
  m1 = m2.
Proof.
  intros H1 H2 H. apply get_ext. intros i.
  destruct (decide (0 ≤ i < N)) as [Hi|Hi].
  - destruct (proj2 (get_is_Some m1 i)) as [r1 E1]; [destruct H1; lia|].
    destruct (proj2 (get_is_Some m2 i)) as [r2 E2]; [destruct H2; lia|].
    rewrite E1, E2. f_equal.
    apply (get_default_ext 0%float r1 r2 (Z.to_nat N)).
    + by apply (matrix_ok_row m1 i).
    + by apply (matrix_ok_row m2 i).
    + intros j Hj. specialize (H i j Hi). unfold get2 in H.
      rewrite E1, E2 in H. apply H. lia.
  - destruct (get m1 i) eqn:E1.
    { assert (is_Some (get m1 i)) as ?%get_is_Some by eauto. destruct H1. lia. }
    destruct (get m2 i) eqn:E2; [|done].
    assert (is_Some (get m2 i)) as ?%get_is_Some by eauto. destruct H2. lia.
Qed.

(** Two well-formed memories with the same cells are the same memory. *)
Lemma mem_ext s1 s2 :
  wf s1 → wf s2 →
  (∀ i j, 0 ≤ i < N → 0 ≤ j < N → a_at s1 i j = a_at s2 i j) →
  (∀ i j, 0 ≤ i < N → 0 ≤ j < N → b_at s1 i j = b_at s2 i j) →
  (∀ i, 0 ≤ i < N → c_at s1 i = c_at s2 i) →
  (∀ i, 0 ≤ i < N → jmax_at s1 i = jmax_at s2 i) →
  s1 = s2.
Proof.
  intros [Ha1 Hb1 Hc1 Hj1] [Ha2 Hb2 Hc2 Hj2] Ha Hb Hc Hj.
  destruct s1 as [a1 b1 c1 j1], s2 as [a2 b2 c2 j2]; simpl in *.
  f_equal.
  - by apply matrix_ext.
  - by apply matrix_ext.
  - apply (get_default_ext 0%float c1 c2 (Z.to_nat N)); [done..|].
    intros i Hi. apply Hc. lia.
  - apply (get_default_ext 0 j1 j2 (Z.to_nat N)); [done..|].
    intros i Hi. apply Hj. lia.
Qed.

(** *** The accesses, on a well-formed memory *)

Lemma wp_load_a s i j Q :
  wf s → 0 ≤ i < N → 0 ≤ j < N →
  Q (a_at s i j) s [Rd (LocA i j)] → wp (load_a i j) s Q.
Proof.
  intros Hwf Hi Hj HQ. unfold wp, load_a, a_at in *.
  destruct (matrix_ok_get2 (a s) i j) as [x Hx]; [apply Hwf|done..|].
  by rewrite Hx in *.
Qed.

Lemma wp_load_b s i j Q :
  wf s → 0 ≤ i < N → 0 ≤ j < N →
  Q (b_at s i j) s [Rd (LocB i j)] → wp (load_b i j) s Q.
Proof.
  intros Hwf Hi Hj HQ. unfold wp, load_b, b_at in *.
  destruct (matrix_ok_get2 (b s) i j) as [x Hx]; [apply Hwf|done..|].
  by rewrite Hx in *.
Qed.

Lemma wp_load_c s i Q :
  wf s → 0 ≤ i < N →
  Q (c_at s i) s [Rd (LocC i)] → wp (load_c i) s Q.
Proof.
  intros Hwf Hi HQ. unfold wp, load_c, c_at in *.
  destruct (proj2 (get_is_Some (c s) i)) as [x Hx]; [destruct Hwf; lia|].
  by rewrite Hx in *.
Qed.

Lemma wp_load_jmax s i Q :
  wf s → 0 ≤ i < N →
  Q (jmax_at s i) s [Rd (LocJmax i)] → wp (load_jmax i) s Q.
Proof.
  intros Hwf Hi HQ. unfold wp, load_jmax, jmax_at in *.
  destruct (proj2 (get_is_Some (jmax s) i)) as [x Hx]; [destruct Hwf; lia|].
  by rewrite Hx in *.
Qed.

Lemma wp_store_a s i j v Q :
  wf s → 0 ≤ i < N → 0 ≤ j < N →
  (∀ s', wf s' → b s' = b s → c s' = c s → jmax s' = jmax s →
     (∀ i' j', a_at s' i' j' =
        if decide (i' = i ∧ j' = j) then v else a_at s i' j') →
     Q tt s' [Wr (LocA i j)]) →
  wp (store_a i j v) s Q.
Proof.
  intros Hwf Hi Hj HQ. unfold wp, store_a.
  destruct (matrix_ok_get2 (a s) i j) as [x ->]; [apply Hwf|done..|].
  destruct Hwf as [Ha Hb Hc Hjm]. apply HQ; try done.
  - split; simpl; try done. by apply matrix_ok_put2.
  - intros i' j'. unfold a_at; simpl. rewrite get2_put2 by done.
    by destruct (decide _).
Qed.

Lemma wp_store_b s i j v Q :
  wf s → 0 ≤ i < N → 0 ≤ j < N →
  (∀ s', wf s' → a s' = a s → c s' = c s → jmax s' = jmax s →
     (∀ i' j', b_at s' i' j' =
        if decide (i' = i ∧ j' = j) then v else b_at s i' j') →
     Q tt s' [Wr (LocB i j)]) →
  wp (store_b i j v) s Q.
Proof.
  intros Hwf Hi Hj HQ. unfold wp, store_b.
  destruct (matrix_ok_get2 (b s) i j) as [x ->]; [apply Hwf|done..|].
  destruct Hwf as [Ha Hb Hc Hjm]. apply HQ; try done.
  - split; simpl; try done. by apply matrix_ok_put2.
  - intros i' j'. unfold b_at; simpl. rewrite get2_put2 by done.
    by destruct (decide _).
Qed.

Lemma wp_store_c s i v Q :
  wf s → 0 ≤ i < N →
  (∀ s', wf s' → a s' = a s → b s' = b s → jmax s' = jmax s →
     (∀ i', c_at s' i' = if decide (i' = i) then v else c_at s i') →
     Q tt s' [Wr (LocC i)]) →
  wp (store_c i v) s Q.
Proof.
  intros Hwf Hi HQ. unfold wp, store_c.
  destruct (proj2 (get_is_Some (c s) i)) as [x ->]; [destruct Hwf; lia|].
  destruct Hwf as [Ha Hb Hc Hjm]. apply HQ; try done.
  - split; simpl; try done. by rewrite length_put.
  - intros i'. unfold c_at; simpl. rewrite get_put by lia.
    by destruct (decide _).
Qed.

Lemma wp_store_jmax s i v Q :
  wf s → 0 ≤ i < N →
  (∀ s', wf s' → a s' = a s → b s' = b s → c s' = c s →
     (∀ i', jmax_at s' i' = if decide (i' = i) then v else jmax_at s i') →
     Q tt s' [Wr (LocJmax i)]) →
  wp (store_jmax i v) s Q.
Proof.
  intros Hwf Hi HQ. unfold wp, store_jmax.
  destruct (proj2 (get_is_Some (jmax s) i)) as [x ->]; [destruct Hwf; lia|].
  destruct Hwf as [Ha Hb Hc Hjm]. apply HQ; try done.
  - split; simpl; try done. by rewrite length_put.
  - intros i'. unfold jmax_at; simpl. rewrite get_put by lia.
    by destruct (decide _).
Qed.

(** ** Kernel A, in the words of the specification *)

Lemma wp_runKernelA_row s i Q :
  wf s → 0 ≤ i < N →
  (∀ s' t, wf s' → b s' = b s → c s' = c s → jmax s' = jmax s →
     (∀ i' j', a_at s' i' j' =
        if decide (i' = i ∧ i < j' < N)
        then (a_at s i j' + cos (b_at s i j'))%float else a_at s i' j') →
     Forall (ev_loop1 i) t →
     Q tt s' t) →
  wp (runKernelA_row i) s Q.
Proof.
  intros Hwf Hi HQ. unfold runKernelA_row.
  apply (wp_for_down (N - 1) i _ s (λ j s' t,
    wf s' ∧ b s' = b s ∧ c s' = c s ∧ jmax s' = jmax s ∧
    (∀ i' j', a_at s' i' j' =
       if decide (i' = i ∧ j < j' < N)
       then (a_at s i j' + cos (b_at s i j'))%float else a_at s i' j') ∧
    Forall (ev_loop1 i) t)).
  - lia.
  - split_and!; try done. intros i' j'. cells.
  - intros k s' t Hk (Hwf' & Hb & Hc & Hjm & Ha & Ht). unfold loop1_stmt.
    apply wp_bind, wp_load_a; [done|lia..|].
    apply wp_bind, wp_load_b; [done|lia..|].
    apply wp_store_a; [done|lia..|].
    intros s'' Hwf'' Hb' Hc' Hjm' Ha'.
    split_and!; try congruence.
    + intros i' j'. rewrite Ha', !Ha. unfold b_at. rewrite Hb. cells.
    + rewrite !Forall_app. split_and!; [done|..];
        apply Forall_singleton; exists k; (split; [lia|tauto]).
  - intros s' t (Hwf' & Hb & Hc & Hjm & Ha & Ht). by apply HQ.
Qed.

Lemma wp_runKernelA s lo hi Q :
  wf s → 0 ≤ lo → lo ≤ hi → hi ≤ N →
  (∀ s' t, wf s' → b s' = b s → c s' = c s → jmax s' = jmax s →
     (∀ i j, a_at s' i j = kernelA_cell (λ i, lo ≤ i < hi) s i j) →
     Forall (λ e, ∃ i, lo ≤ i < hi ∧ ev_loop1 i e) t →
     Q tt s' t) →
  wp (runKernelA lo hi) s Q.
Proof.
  intros Hwf Hlo Hle Hhi HQ. unfold runKernelA.
  apply (wp_for_range lo hi _ s (λ k s' t,
    wf s' ∧ b s' = b s ∧ c s' = c s ∧ jmax s' = jmax s ∧
    (∀ i j, a_at s' i j = kernelA_cell (λ i, lo ≤ i < k) s i j) ∧
    Forall (λ e, ∃ i, lo ≤ i < hi ∧ ev_loop1 i e) t)).
  - done.
  - split_and!; try done. intros i j. unfold kernelA_cell. cells.
  - intros k s' t Hk (Hwf' & Hb & Hc & Hjm & Ha & Ht).
    apply wp_runKernelA_row; [done|lia|].
    intros s'' t' Hwf'' Hb' Hc' Hjm' Ha' Ht'.
    split_and!; try congruence.
    + intros i j. rewrite Ha', !Ha. unfold kernelA_cell, b_at. rewrite Hb.
      cells.
    + rewrite Forall_app. split; [done|].
      eapply Forall_impl; [exact Ht'|]. intros e He. exists k. split; [lia|done].
  - intros s' t (Hwf' & Hb & Hc & Hjm & Ha & Ht). by apply HQ.
Qed.

(** ** Kernel B, in the words of the specification *)

Lemma seqZ_snoc m n : 0 ≤ n → seqZ m (n + 1) = seqZ m n ++ [m + n].
Proof. intros Hn. rewrite seqZ_app by lia. f_equal. Qed.

Lemma kernelB_row_frame s s' i c0 :
  b s' = b s → jmax s' = jmax s → kernelB_row s' i c0 = kernelB_row s i c0.
Proof. intros Hb Hjm. unfold kernelB_row, b_at, jmax_at. by rewrite Hb, Hjm. Qed.

Lemma wp_runKernelB_row s i Q :
  wf s → 0 ≤ i < N → jmax_at s i ≤ N →
  (∀ s' t, wf s' → a s' = a s → b s' = b s → jmax s' = jmax s →
     (∀ i', c_at s' i' =
        if decide (i' = i) then kernelB_row s i (c_at s i) else c_at s i') →
     Forall (ev_loop2 (jmax_at s i) i) t →
     Q tt s' t) →
  wp (runKernelB_row rN2_val i) s Q.
Proof.
  intros Hwf Hi Hjm HQ. unfold runKernelB_row.
  set (G := λ (j : Z) (acc : float) (k : Z),
    (acc + of_int (k + 1) * log (b_at s i j) * rN2_val)%float).
  set (F := λ (acc : float) (j : Z), foldl (G j) acc (seqZ 0 j)).
  set (Inv := λ (j : Z) (s' : mem) (t : trace),
    wf s' ∧ a s' = a s ∧ b s' = b s ∧ jmax s' = jmax s ∧
    (∀ i', c_at s' i' =
       if decide (i' = i) then foldl F (c_at s i) (seqZ 0 j) else c_at s i') ∧
    Forall (ev_loop2 (jmax_at s i) i) t).
  apply (wp_for_cond _ 0 _ _ s Inv Inv (Z.max 0 (jmax_at s i))).
  - lia.
  - unfold runKernelB_fuel. lia.
  - unfold Inv. split_and!; try done. intros i'. rewrite seqZ_nil by lia. cells.
  - intros k s' t Hk (Hwf' & Ha & Hb & Hjm' & Hc & Ht).
    apply wp_bind, wp_load_jmax; [done..|]. apply wp_ret.
    assert (jmax_at s' i = jmax_at s i) as -> by (unfold jmax_at; by rewrite Hjm').
    assert (Forall (ev_loop2 (jmax_at s i) i) (t ++ [Rd (LocJmax i)] ++ [])) as Ht'.
    { rewrite Forall_app. split; [done|]. apply Forall_singleton. by left. }
    split; [lia|].
    destruct (Z.ltb_spec k (jmax_at s i)) as [Hlt|Hge].
    + unfold Inv. by split_and!.
    + apply HQ; try done. intros i'. rewrite Hc. unfold kernelB_row, accum_row.
      destruct (decide (jmax_at s i ≤ 0)).
      * assert (k = 0) as -> by lia. by rewrite !seqZ_nil by lia.
      * by assert (k = jmax_at s i) as -> by lia.
  - intros k s' t Hk (Hwf' & Ha & Hb & Hjm' & Hc & Ht).
    apply (wp_for_range 0 k _ s' (λ kk s'' t',
      wf s'' ∧ a s'' = a s ∧ b s'' = b s ∧ jmax s'' = jmax s ∧
      (∀ i', c_at s'' i' =
         if decide (i' = i)
         then foldl (G k) (foldl F (c_at s i) (seqZ 0 k)) (seqZ 0 kk)
         else c_at s i') ∧
      Forall (ev_loop2 (jmax_at s i) i) t')).
    + lia.
    + by split_and!.
    + intros kk s'' t' Hkk (Hwf'' & Ha' & Hb' & Hjm'' & Hc' & Ht').
      unfold loop2_stmt.
      apply wp_bind, wp_load_c; [done..|].
      apply wp_bind, wp_load_b; [done|lia..|].
      apply wp_store_c; [done..|].
      intros s3 Hwf3 Ha3 Hb3 Hjm3 Hc3.
      split_and!; try congruence.
      * intros i'. rewrite Hc3, !Hc'. rewrite seqZ_snoc, foldl_snoc by lia.
        unfold G at 1. unfold b_at. rewrite Hb'. cells.
      * rewrite !Forall_app. split_and!; [done|..]; apply Forall_singleton.
        -- right; by left.
        -- right; right; right. exists k. split; [lia|done].
        -- right; right; by left.
    + intros s'' t' (Hwf'' & Ha' & Hb' & Hjm'' & Hc' & Ht').
      unfold Inv. split_and!; try done.
      * intros i'. rewrite Hc'. rewrite seqZ_snoc, foldl_snoc by lia. done.
      * by rewrite Forall_app.
Qed.

Lemma wp_runKernelB s lo hi Q :
  wf s → 0 ≤ lo → lo ≤ hi → hi ≤ N →
  (∀ i, lo ≤ i < hi → jmax_at s i ≤ N) →
  (∀ s' t, wf s' → a s' = a s → b s' = b s → jmax s' = jmax s →
     (∀ i, c_at s' i = kernelB_cell (λ i, lo ≤ i < hi) s i) →
     Forall (λ e, ∃ i, lo ≤ i < hi ∧ ev_loop2 (jmax_at s i) i e) t →
     Q tt s' t) →
  wp (runKernelB lo hi) s Q.
Proof.
  intros Hwf Hlo Hle Hhi Hjmax HQ. unfold runKernelB.
  apply (wp_for_range lo hi _ s (λ k s' t,
    wf s' ∧ a s' = a s ∧ b s' = b s ∧ jmax s' = jmax s ∧
    (∀ i, c_at s' i = kernelB_cell (λ i, lo ≤ i < k) s i) ∧
    Forall (λ e, ∃ i, lo ≤ i < hi ∧ ev_loop2 (jmax_at s i) i e) t)).
  - done.
  - split_and!; try done. intros i. unfold kernelB_cell. cells.
  - intros k s' t Hk (Hwf' & Ha & Hb & Hjm & Hc & Ht).
    assert (jmax_at s' k = jmax_at s k) as Hjk by (unfold jmax_at; by rewrite Hjm).
    apply wp_runKernelB_row; [done|lia| |].
    { rewrite Hjk. by apply Hjmax. }
    intros s'' t' Hwf'' Ha' Hb' Hjm' Hc' Ht'.
    split_and!; try congruence.
    + intros i. rewrite Hc', !Hc. unfold kernelB_cell.
      rewrite (kernelB_row_frame s s') by done. cells.
    + rewrite Forall_app. split; [done|].
      eapply Forall_impl; [exact Ht'|]. intros e He. exists k.
      split; [lia|]. by rewrite <- Hjk.
  - intros s' t (Hwf' & Ha & Hb & Hjm & Hc & Ht). by apply HQ.
Qed.

(** ** Initialisation *)

Lemma wp_init1 s Q :
  wf s →
  (∀ s' t, wf s' → c s' = c s → jmax s' = jmax s →
     (∀ i j, 0 ≤ i < N → 0 ≤ j < N →
        a_at s' i j = 0%float ∧ b_at s' i j = b_init1 i j) →
     Q tt s' t) →
  wp init1 s Q.
Proof.
  intros Hwf HQ. unfold init1.
  set (Done := λ (i j : Z) (s' : mem),
    wf s' ∧ c s' = c s ∧ jmax s' = jmax s ∧
    ∀ i' j', 0 ≤ i' < N → 0 ≤ j' < N → i' < i ∨ (i' = i ∧ j' < j) →
      a_at s' i' j' = 0%float ∧ b_at s' i' j' = b_init1 i' j').
  apply (wp_for_range 0 N _ s (λ i s' _, Done i 0 s')).
  - done.
  - unfold Done. split_and!; try done. intros; lia.
  - intros i s0 _ Hi HD.
    apply (wp_for_range 0 N _ s0 (λ j s' _, Done i j s')); [done|done| |].
    + intros j s1 _ Hj (Hwf1 & Hc1 & Hjm1 & Hcells).
      apply wp_bind, wp_store_a; [done..|].
      intros s2 Hwf2 Hb2 Hc2 Hjm2 Ha2.
      apply wp_store_b; [done..|].
      intros s3 Hwf3 Ha3 Hc3 Hjm3 Hb3.
      unfold Done. split_and!; try congruence.
      intros i' j' Hi' Hj' Hlt. rewrite Hb3. unfold a_at at 1. rewrite Ha3.
      fold (a_at s2 i' j'). rewrite Ha2.
      assert (b_at s2 i' j' = b_at s1 i' j') as -> by (unfold b_at; by rewrite Hb2).
      case_decide as Hij.
      * destruct Hij as [-> ->]. done.
      * apply Hcells; [done..|]. lia.
    + intros s1 _ (Hwf1 & Hc1 & Hjm1 & Hcells).
      unfold Done. split_and!; try done.
      intros i' j' Hi' Hj' Hlt. apply Hcells; [done..|]. lia.
  - intros s' t (Hwf' & Hc' & Hjm' & Hcells). apply HQ; try done.
    intros i j Hi Hj. apply Hcells; [done..|]. lia.
Qed.

Lemma jmax_divisor_pos i : 0 ≤ i → 1 ≤ jmax_divisor i.
Proof.
  intros Hi. unfold jmax_divisor.
  assert (0 ≤ i ÷ 30) by (apply Z.quot_pos; lia). lia.
Qed.

Lemma jmax_spec_rem i :
  0 ≤ i →
  (if Z.rem i (jmax_divisor i) =? 0 then N else 1) = jmax_spec i.
Proof.
  intros Hi. unfold jmax_spec.
  pose proof (jmax_divisor_pos i Hi) as Hd. unfold jmax_divisor in *.
  rewrite Z.rem_mod_nonneg by lia. rewrite Z.quot_div_nonneg by lia.
  destruct (Z.eqb_spec (i `mod` (3 * (i `div` 30) + 1)) 0); by cells.
Qed.

Lemma wp_init2 s Q :
  wf s →
  (∀ s' t, wf s' → a s' = a s →
     (∀ i, 0 ≤ i < N → jmax_at s' i = jmax_spec i ∧ c_at s' i = 0%float) →
     (∀ i j, 0 ≤ i < N → 0 ≤ j < N → b_at s' i j = b_init2 i j) →
     Q tt s' t) →
  wp init2 s Q.
Proof.
  intros Hwf HQ. unfold init2. apply wp_bind.
  apply (wp_for_range 0 N _ s (λ i s' _,
    wf s' ∧ a s' = a s ∧
    ∀ i', 0 ≤ i' < i → jmax_at s' i' = jmax_spec i' ∧ c_at s' i' = 0%float)).
  - done.
  - split_and!; try done. intros; lia.
  - intros i s0 _ Hi (Hwf0 & Ha0 & Hcells).
    pose proof (jmax_divisor_pos i) as Hd.
    unfold c_rem. destruct (Z.eqb_spec (jmax_divisor i) 0) as [|_]; [lia|].
    apply wp_bind.
    apply (wp_mono _ _ (λ _ s1 _, wf s1 ∧ a s1 = a s0 ∧ c s1 = c s0 ∧
      ∀ i', jmax_at s1 i' = if decide (i' = i) then jmax_spec i else jmax_at s0 i')).
    { rewrite <- jmax_spec_rem by lia.
      destruct (Z.rem i (jmax_divisor i) =? 0);
        apply wp_store_jmax; try done; intros; by split_and!. }
    intros [] s1 _ (Hwf1 & Ha1 & Hc1 & Hjm1).
    apply wp_store_c; [done..|].
    intros s2 Hwf2 Ha2 Hb2 Hjm2 Hc2.
    split_and!; try congruence.
    intros i' Hi'. rewrite Hc2. unfold jmax_at at 1. rewrite Hjm2.
    fold (jmax_at s1 i'). rewrite Hjm1.
    assert (c_at s1 i' = c_at s0 i') as -> by (unfold c_at; by rewrite Hc1).
    case_decide as Hii; [by subst i'|]. apply Hcells. lia.
  - intros s0 t0 (Hwf0 & Ha0 & Hcells0).
    set (Done := λ (i j : Z) (s' : mem),
      wf s' ∧ a s' = a s0 ∧ c s' = c s0 ∧ jmax s' = jmax s0 ∧
      ∀ i' j', 0 ≤ i' < N → 0 ≤ j' < N → i' < i ∨ (i' = i ∧ j' < j) →
        b_at s' i' j' = b_init2 i' j').
    apply (wp_for_range 0 N _ s0 (λ i s' _, Done i 0 s')).
    + done.
    + unfold Done. split_and!; try done. intros; lia.
    + intros i s1 _ Hi HD.
      apply (wp_for_range 0 N _ s1 (λ j s' _, Done i j s')); [done|done| |].
      * intros j s2 _ Hj (Hwf2 & Ha2 & Hc2 & Hjm2 & Hcells).
        apply wp_store_b; [done..|].
        intros s3 Hwf3 Ha3 Hc3 Hjm3 Hb3.
        unfold Done. split_and!; try congruence.
        intros i' j' Hi' Hj' Hlt. rewrite Hb3.
        case_decide as Hij.
        -- destruct Hij as [-> ->]. done.
        -- apply Hcells; [done..|]. lia.
      * intros s2 _ (Hwf2 & Ha2 & Hc2 & Hjm2 & Hcells).
        unfold Done. split_and!; try done.
        intros i' j' Hi' Hj' Hlt. apply Hcells; [done..|]. lia.
    + intros s' t (Hwf' & Ha' & Hc' & Hjm' & Hcells). apply HQ; try congruence.
      * intros i Hi. unfold jmax_at, c_at. rewrite Hjm', Hc'.
        apply Hcells0. lia.
      * intros i j Hi Hj. apply Hcells; [done..|]. lia.
Qed.

(** ** Checksums *)

Lemma row_sum_next s i acc n :
  0 ≤ n → row_sum s i acc (n + 1) = (row_sum s i acc n + a_at s i n)%float.
Proof. intros Hn. unfold row_sum. by rewrite seqZ_snoc, foldl_snoc by lia. Qed.

Lemma sum_a_upto_next s n :
  0 ≤ n → sum_a_upto s (n + 1) = row_sum s n (sum_a_upto s n) N.
Proof. intros Hn. unfold sum_a_upto. by rewrite seqZ_snoc, foldl_snoc by lia. Qed.

Lemma sum_c_upto_next s n :
  0 ≤ n → sum_c_upto s (n + 1) = (sum_c_upto s n + c_at s n)%float.
Proof. intros Hn. unfold sum_c_upto. by rewrite seqZ_snoc, foldl_snoc by lia. Qed.

Lemma wp_valid1 s Q :
  wf s → (∀ t, Q (sum_a s) s t) → wp valid1 s Q.
Proof.
  intros Hwf HQ. unfold valid1.
  apply (wp_fold_range 0 N _ _ s (λ i acc s' _,
    s' = s ∧ acc = sum_a_upto s i)).
  - done.
  - done.
  - intros i acc s' _ Hi [-> ->].
    apply (wp_fold_range 0 N _ _ s (λ j acc' s' _,
      s' = s ∧ acc' = row_sum s i (sum_a_upto s i) j)); [done|done| |].
    + intros j acc' s' _ Hj [-> ->].
      apply wp_bind, wp_load_a; [done..|]. apply wp_ret.
      split; [done|]. by rewrite row_sum_next by lia.
    + intros acc' s' _ [-> ->]. split; [done|].
      by rewrite sum_a_upto_next by lia.
  - intros acc s' t [-> ->]. apply HQ.
Qed.

Lemma wp_valid2 s Q :
  wf s → (∀ t, Q (sum_c s) s t) → wp valid2 s Q.
Proof.
  intros Hwf HQ. unfold valid2.
  apply (wp_fold_range 0 N _ _ s (λ i acc s' _,
    s' = s ∧ acc = sum_c_upto s i)).
  - done.
  - done.
  - intros i acc s' _ Hi [-> ->].
    apply wp_bind, wp_load_c; [done..|]. apply wp_ret.
    split; [done|]. by rewrite sum_c_upto_next by lia.
  - intros acc s' t [-> ->]. apply HQ.
Qed.

(** ** Cells and runs *)

Lemma a_at_get2_Some s i j :
  wf s → 0 ≤ i < N → 0 ≤ j < N → get2 (a s) i j = Some (a_at s i j).
Proof.
  intros Hwf Hi Hj. unfold a_at.
  by destruct (matrix_ok_get2 (a s) i j) as [x ->]; [apply Hwf|..].
Qed.

Lemma b_at_get2_Some s i j :
  wf s → 0 ≤ i < N → 0 ≤ j < N → get2 (b s) i j = Some (b_at s i j).
Proof.
  intros Hwf Hi Hj. unfold b_at.
  by destruct (matrix_ok_get2 (b s) i j) as [x ->]; [apply Hwf|..].
Qed.

Lemma c_at_get_Some s i :
  wf s → 0 ≤ i < N → get (c s) i = Some (c_at s i).
Proof.
  intros Hwf Hi. unfold c_at.
  by destruct (proj2 (get_is_Some (c s) i)) as [x ->]; [destruct Hwf; lia|].
Qed.

Lemma jmax_at_get_Some s i :
  wf s → 0 ≤ i < N → get (jmax s) i = Some (jmax_at s i).
Proof.
  intros Hwf Hi. unfold jmax_at.
  by destruct (proj2 (get_is_Some (jmax s) i)) as [x ->]; [destruct Hwf; lia|].
Qed.

Lemma exec_wp {A} (m : M A) s (P : mem → Prop) :
  wp m s (λ _ s' _, P s') → ∃ s', exec m s = Some s' ∧ P s'.
Proof.
  intros (x & s' & t & Hrun & HP)%wp_run. exists s'. unfold exec.
  by rewrite Hrun.
Qed.

(** ** The initialisation routines *)

Lemma exec_bind {A B} (m : M A) (k : M B) s :
  exec (m ;;; k) s = exec m s ≫= exec k.
Proof.
  unfold exec, bind. destruct (m s) as [[[x s1] t1]|]; [|done]; simpl.
  by destruct (k s1) as [[[y s2] t2]|].
Qed.

(** C3. Shape of [jmax]: with [N = 729], after [init2] the entry
    [jmax[i]] is [N] if and only if [i mod (3*(i/30)+1) = 0], and it is
    [1] otherwise, for every [i] in [0, N). *)
Theorem init2_jmax_shape (s : mem) :
  wf s →
  N = 729 ∧
  ∃ s', exec init2 s = Some s' ∧
    ∀ i, 0 ≤ i < N →
      (get (jmax s') i = Some N ↔ i `mod` (3 * (i `div` 30) + 1) = 0) ∧
      (i `mod` (3 * (i `div` 30) + 1) ≠ 0 → get (jmax s') i = Some 1).
Proof.
  intros Hwf. split; [done|]. apply exec_wp, wp_init2; [done|].
  intros s' t Hwf' _ Hjc _ i Hi.
  rewrite jmax_at_get_Some by done. destruct (Hjc i Hi) as [-> _].
  unfold jmax_spec. case_decide as Hm.
  - split; [done|]. by intros.
  - split; [|done]. split; [|done]. intros [=].
Qed.

(** C10. The divisor of the remainder in [init2] is never zero: for
    every [i >= 0] it is at least [1], the remainder is defined, and
    [init2] is defined on every memory. *)
Theorem jmax_divisor_nonzero (i : Z) :
  0 ≤ i →
  1 ≤ jmax_divisor i ∧
  c_rem i (jmax_divisor i) = Some (i `mod` jmax_divisor i) ∧
  ∀ s, wf s → is_Some (init2 s).
Proof.
  intros Hi. pose proof (jmax_divisor_pos i Hi) as Hd. split_and!.
  - done.
  - unfold c_rem. destruct (Z.eqb_spec (jmax_divisor i) 0); [lia|].
    by rewrite Z.rem_mod_nonneg by lia.
  - intros s Hwf.
    destruct (proj1 (wp_run init2 s (λ _ _ _, True))) as (x & s' & t & -> & _);
      [|done].
    by apply wp_init2.
Qed.

(** C9. Idempotent initialisation: whatever [a] and [b] hold, [init1]
    sets [b[i][j]] to [3.142 * (i + j)] and [a[i][j]] to [0] for all
    [i], [j] in [0, N), and calling it twice in a row gives the same
    memory as calling it once. *)
Theorem init1_idempotent (s : mem) :
  wf s →
  ∃ s1, exec init1 s = Some s1 ∧
    exec (init1 ;;; init1) s = Some s1 ∧
    ∀ i j, 0 ≤ i < N → 0 ≤ j < N →
      get2 (b s1) i j = Some (c3142 * of_int (i + j))%float ∧
      get2 (a s1) i j = Some 0%float.
Proof.
  intros Hwf.
  destruct (exec_wp init1 s (λ s', wf s' ∧ c s' = c s ∧ jmax s' = jmax s ∧
    ∀ i j, 0 ≤ i < N → 0 ≤ j < N →
      a_at s' i j = 0%float ∧ b_at s' i j = b_init1 i j))
    as (s1 & Hrun1 & Hwf1 & Hc1 & Hjm1 & Hcells1).
  { apply wp_init1; [done|]. intros. by split_and!. }
  destruct (exec_wp init1 s1 (λ s', s' = s1)) as (s2 & Hrun2 & ->).
  { apply wp_init1; [done|]. intros s2 t Hwf2 Hc2 Hjm2 Hcells2.
    apply mem_ext; try done.
    - intros i j Hi Hj.
      destruct (Hcells1 i j Hi Hj) as [-> _]. by destruct (Hcells2 i j Hi Hj).
    - intros i j Hi Hj.
      destruct (Hcells1 i j Hi Hj) as [_ ->]. by destruct (Hcells2 i j Hi Hj).
    - intros i _. unfold c_at. by rewrite Hc2.
    - intros i _. unfold jmax_at. by rewrite Hjm2. }
  exists s1. split_and!; [done| |].
  - rewrite exec_bind, Hrun1. done.
  - intros i j Hi Hj. destruct (Hcells1 i j Hi Hj) as [Ha Hb].
    rewrite a_at_get2_Some, b_at_get2_Some by done. by rewrite Ha, Hb.
Qed.

(** *** Positivity *)




Lemma elem_of_reads l t : l ∈ reads t ↔ Rd l ∈ t.
Proof.
  unfold reads. rewrite list_elem_of_omap. split.
  - intros ([l'|l'] & Hin & Heq); by simplify_eq.
  - intros Hin. by exists (Rd l).
Qed.


Lemma result_of_bind {A B} (m : M A) (k : M B) s s' :
  exec m s = Some s' → result_of (m ;;; k) s = result_of k s'.
Proof.
  unfold exec, result_of, bind. destruct (m s) as [[[x s1] t1]|]; [|done].
  intros [= ->]. by destruct (k s') as [[[y s2] t2]|].
Qed.

Lemma result_of_valid1 s : wf s → result_of valid1 s = Some (sum_a s).
Proof.
  intros Hwf.
  destruct (proj1 (wp_run valid1 s (λ x _ _, x = sum_a s)))
    as (x & s' & t & Hrun & ->); [by apply wp_valid1|].
  unfold result_of. rewrite Hrun. reflexivity.
Qed.

Lemma result_of_valid2 s : wf s → result_of valid2 s = Some (sum_c s).
Proof.
  intros Hwf.
  destruct (proj1 (wp_run valid2 s (λ x _ _, x = sum_c s)))
    as (x & s' & t & Hrun & ->); [by apply wp_valid2|].
  unfold result_of. rewrite Hrun. reflexivity.
Qed.

(** ** Repeated additions *)

(** Repeated addition and scaling differ in binary64: a cell that has
    accumulated a value a hundred times need not hold a hundred times
    the value. *)
Example accumulate_is_not_scale :
  PrimFloat.eqb
    (Nat.iter (Z.to_nat reps) (λ x, (x + 1 / 10)%float) 0%float)
    (of_int reps * (1 / 10))%float = false.
Proof. vm_compute. reflexivity. Qed.

(** ** The initialisers together, the checksums *)

(** X11. What the initialisers leave alone: [init1] keeps [c] and
    [jmax] as they are, and [init2] keeps [a] as it is; so neither of
    them alone resets the whole memory. *)
Theorem init_frames (s : mem) :
  wf s →
  (∃ s', exec init1 s = Some s' ∧ c s' = c s ∧ jmax s' = jmax s) ∧
  (∃ s', exec init2 s = Some s' ∧ a s' = a s).
Proof.
  intros Hwf. split.
  - apply exec_wp, wp_init1; [exact Hwf|]. intros s' t _ Hc Hjm _. by split.
  - apply exec_wp, wp_init2; [exact Hwf|]. intros s' t _ Ha _ _. exact Ha.
Qed.

Lemma init1_init2_cells s :
  wf s →
  ∃ s', exec (init1 ;;; init2) s = Some s' ∧ wf s' ∧
    (∀ i j, 0 ≤ i < N → 0 ≤ j < N →
       a_at s' i j = 0%float ∧ b_at s' i j = b_init2 i j) ∧
    (∀ i, 0 ≤ i < N → c_at s' i = 0%float ∧ jmax_at s' i = jmax_spec i).
Proof.
  intros Hwf. apply exec_wp, wp_bind, wp_init1; [exact Hwf|].
  intros s1 t1 Hwf1 _ _ Hcells1. apply wp_init2; [exact Hwf1|].
  intros s2 t2 Hwf2 Ha2 Hjc2 Hb2. split_and!; [exact Hwf2|..].
  - intros i j Hi Hj. split; [|by apply Hb2].
    unfold a_at. rewrite Ha2. by apply Hcells1.
  - intros i Hi. destruct (Hjc2 i Hi). by split.
Qed.

(** X12. The two initialisers together reset the whole memory: from any
    two well-formed memories, [init1] followed by [init2] ends in the
    same memory, with [a] and [c] zero, [b] as [init2] fills it and
    [jmax] in its shape. *)
Theorem initialisation_resets (s1 s2 : mem) :
  wf s1 → wf s2 →
  ∃ s', exec (init1 ;;; init2) s1 = Some s' ∧
        exec (init1 ;;; init2) s2 = Some s' ∧
        ∀ i j, 0 ≤ i < N → 0 ≤ j < N →
          get2 (a s') i j = Some 0%float ∧
          get2 (b s') i j = Some (of_int (i * j + 1) / of_int (N * N))%float ∧
          get (c s') i = Some 0%float ∧
          get (jmax s') i = Some (jmax_spec i).
Proof.
  intros Hwf1 Hwf2.
  destruct (init1_init2_cells s1 Hwf1) as (r1 & Hrun1 & Hwfr1 & Hab1 & Hcj1).
  destruct (init1_init2_cells s2 Hwf2) as (r2 & Hrun2 & Hwfr2 & Hab2 & Hcj2).
  assert (r2 = r1) as ->.
  { apply mem_ext; try assumption.
    - intros i j Hi Hj.
      by rewrite (proj1 (Hab1 i j Hi Hj)), (proj1 (Hab2 i j Hi Hj)).
    - intros i j Hi Hj.
      by rewrite (proj2 (Hab1 i j Hi Hj)), (proj2 (Hab2 i j Hi Hj)).
    - intros i Hi. by rewrite (proj1 (Hcj1 i Hi)), (proj1 (Hcj2 i Hi)).
    - intros i Hi. by rewrite (proj2 (Hcj1 i Hi)), (proj2 (Hcj2 i Hi)). }
  exists r1. split; [exact Hrun1|]. split; [exact Hrun2|].
  intros i j Hi Hj.
  rewrite a_at_get2_Some, b_at_get2_Some, c_at_get_Some, jmax_at_get_Some
    by assumption.
  rewrite (proj1 (Hab1 i j Hi Hj)), (proj2 (Hab1 i j Hi Hj)).
  rewrite (proj1 (Hcj1 i Hi)), (proj2 (Hcj1 i Hi)). by split_and!.
Qed.

(** *** Sums of zeros *)

Lemma row_sum_zero s i (k : nat) :
  (∀ j, 0 ≤ j < Z.of_nat k → a_at s i j = 0%float) →
  row_sum s i 0%float (Z.of_nat k) = 0%float.
Proof.
  induction k as [|k IH]; intros Hz.
  - unfold row_sum. by rewrite seqZ_nil by lia.
  - rewrite Nat2Z.inj_succ, <- Z.add_1_r, row_sum_next by lia.
    rewrite IH by (intros; apply Hz; lia). rewrite Hz by lia. reflexivity.
Qed.

Lemma sum_a_upto_zero s (k : nat) :
  (∀ i j, 0 ≤ i < Z.of_nat k → 0 ≤ j < N → a_at s i j = 0%float) →
  sum_a_upto s (Z.of_nat k) = 0%float.
Proof.
  induction k as [|k IH]; intros Hz.
  - unfold sum_a_upto. by rewrite seqZ_nil by lia.
  - rewrite Nat2Z.inj_succ, <- Z.add_1_r, sum_a_upto_next by lia.
    rewrite IH by (intros; apply Hz; lia).
    replace N with (Z.of_nat (Z.to_nat N)) at 1 by (unfold N; lia).
    apply row_sum_zero. intros j Hj. apply Hz; lia.
Qed.

Lemma sum_c_upto_zero s (k : nat) :
  (∀ i, 0 ≤ i < Z.of_nat k → c_at s i = 0%float) →
  sum_c_upto s (Z.of_nat k) = 0%float.
Proof.
  induction k as [|k IH]; intros Hz.
  - unfold sum_c_upto. by rewrite seqZ_nil by lia.
  - rewrite Nat2Z.inj_succ, <- Z.add_1_r, sum_c_upto_next by lia.
    rewrite IH by (intros; apply Hz; lia). rewrite Hz by lia. reflexivity.
Qed.

(** X13. The checksums straight after initialisation: [valid1] after
    [init1], and [valid2] after [init2], return [0.0] whatever the
    memory held before. *)
Theorem checksum_after_init (s : mem) :
  wf s →
  result_of (init1 ;;; valid1) s = Some 0%float ∧
  result_of (init2 ;;; valid2) s = Some 0%float.
Proof.
  intros Hwf. split.
  - destruct (exec_wp init1 s (λ s', wf s' ∧
      ∀ i j, 0 ≤ i < N → 0 ≤ j < N → a_at s' i j = 0%float))
      as (s1 & Hrun & Hwf1 & Hz).
    { apply wp_init1; [exact Hwf|]. intros s' t Hwf' _ _ Hcells.
      split; [exact Hwf'|]. intros i j Hi Hj. by apply Hcells. }
    rewrite (result_of_bind _ _ s s1 Hrun), result_of_valid1 by exact Hwf1.
    apply (f_equal Some).
    replace N with (Z.of_nat (Z.to_nat N)) at 1 by (unfold N; lia).
    apply sum_a_upto_zero. intros i j Hi Hj.
    apply Hz; [unfold N in *; lia|exact Hj].
  - destruct (exec_wp init2 s (λ s', wf s' ∧
      ∀ i, 0 ≤ i < N → c_at s' i = 0%float))
      as (s1 & Hrun & Hwf1 & Hz).
    { apply wp_init2; [exact Hwf|]. intros s' t Hwf' _ Hjc _.
      split; [exact Hwf'|]. intros i Hi. by apply Hjc. }
    rewrite (result_of_bind _ _ s s1 Hrun), result_of_valid2 by exact Hwf1.
    apply (f_equal Some).
    replace N with (Z.of_nat (Z.to_nat N)) at 1 by (unfold N; lia).
    apply sum_c_upto_zero. intros i Hi. apply Hz. unfold N in *; lia.
Qed.

(** *** The checksums read and do not write *)

Lemma writes_app t t' : writes (t ++ t') = writes t ++ writes t'.
Proof. apply omap_app. Qed.

Lemma reads_app t t' : reads (t ++ t') = reads t ++ reads t'.
Proof. apply omap_app. Qed.

Lemma wp_valid1_reads s Q :
  wf s →
  (∀ t, writes t = [] →
     Z.of_nat (length (reads t)) = N * N →
     Forall (λ e, ∃ i j, 0 ≤ i < N ∧ 0 ≤ j < N ∧ e = Rd (LocA i j)) t →
     Q (sum_a s) s t) →
  wp valid1 s Q.
Proof.
  intros Hwf HQ. unfold valid1.
  set (P := λ e : event, ∃ i j, 0 ≤ i < N ∧ 0 ≤ j < N ∧ e = Rd (LocA i j)).
  apply (wp_fold_range 0 N _ _ s (λ i acc s' t,
    s' = s ∧ acc = sum_a_upto s i ∧ writes t = [] ∧
    Z.of_nat (length (reads t)) = i * N ∧ Forall P t)).
  - unfold N; lia.
  - split_and!; [reflexivity|reflexivity|reflexivity|simpl; lia|constructor].
  - intros i acc s' t Hi (-> & -> & Hw & Hr & Ht).
    apply (wp_fold_range 0 N _ _ s (λ j acc' s' t',
      s' = s ∧ acc' = row_sum s i (sum_a_upto s i) j ∧ writes t' = [] ∧
      Z.of_nat (length (reads t')) = j ∧ Forall P t')).
    + unfold N; lia.
    + split_and!; [reflexivity|reflexivity|reflexivity|reflexivity|constructor].
    + intros j acc' s' t' Hj (-> & -> & Hw' & Hr' & Ht').
      apply wp_bind, wp_load_a; [exact Hwf|exact Hi|exact Hj|]. apply wp_ret.
      split_and!; [reflexivity|by rewrite row_sum_next by lia|..].
      * rewrite !writes_app, Hw'. reflexivity.
      * rewrite !reads_app, !length_app. simpl. lia.
      * rewrite !Forall_app. split_and!; [exact Ht'| |constructor].
        apply Forall_singleton. exists i, j.
        split; [exact Hi|]. split; [exact Hj|reflexivity].
    + intros acc' s' t' (-> & -> & Hw' & Hr' & Ht').
      split_and!; [reflexivity|by rewrite sum_a_upto_next by lia|..].
      * rewrite writes_app, Hw, Hw'. reflexivity.
      * rewrite reads_app, length_app. lia.
      * rewrite Forall_app. by split.
  - intros acc s' t (-> & -> & Hw & Hr & Ht). by apply HQ.
Qed.

Lemma wp_valid2_reads s Q :
  wf s →
  (∀ t, writes t = [] →
     Z.of_nat (length (reads t)) = N →
     Forall (λ e, ∃ i, 0 ≤ i < N ∧ e = Rd (LocC i)) t →
     Q (sum_c s) s t) →
  wp valid2 s Q.
Proof.
  intros Hwf HQ. unfold valid2.
  set (P := λ e : event, ∃ i, 0 ≤ i < N ∧ e = Rd (LocC i)).
  apply (wp_fold_range 0 N _ _ s (λ i acc s' t,
    s' = s ∧ acc = sum_c_upto s i ∧ writes t = [] ∧
    Z.of_nat (length (reads t)) = i ∧ Forall P t)).
  - unfold N; lia.
  - split_and!; [reflexivity|reflexivity|reflexivity|reflexivity|constructor].
  - intros i acc s' t Hi (-> & -> & Hw & Hr & Ht).
    apply wp_bind, wp_load_c; [exact Hwf|exact Hi|]. apply wp_ret.
    split_and!; [reflexivity|by rewrite sum_c_upto_next by lia|..].
    + rewrite !writes_app, Hw. reflexivity.
    + rewrite !reads_app, !length_app. simpl. lia.
    + rewrite !Forall_app. split_and!; [exact Ht| |constructor].
      apply Forall_singleton. exists i. split; [exact Hi|reflexivity].
  - intros acc s' t (-> & -> & Hw & Hr & Ht). by apply HQ.
Qed.

(** X14. The checksum routines only read: on a well-formed memory
    [valid1] returns the sum of [a] in row order and [valid2] the sum of
    [c], each leaves the memory as it is and writes nothing; [valid1]
    reads [N * N] cells, all of [a], and [valid2] reads [N] cells, all
    of [c]. *)
Theorem valid_read_only (s : mem) :
  wf s →
  (∃ t, valid1 s = Some (sum_a s, s, t) ∧ writes t = [] ∧
     Z.of_nat (length (reads t)) = N * N ∧
     ∀ l, l ∈ reads t → ∃ i j, 0 ≤ i < N ∧ 0 ≤ j < N ∧ l = LocA i j) ∧
  (∃ t, valid2 s = Some (sum_c s, s, t) ∧ writes t = [] ∧
     Z.of_nat (length (reads t)) = N ∧
     ∀ l, l ∈ reads t → ∃ i, 0 ≤ i < N ∧ l = LocC i).
Proof.
  intros Hwf. split.
  - destruct (proj1 (wp_run valid1 s (λ x s' t,
      x = sum_a s ∧ s' = s ∧ writes t = [] ∧
      Z.of_nat (length (reads t)) = N * N ∧
      Forall (λ e, ∃ i j, 0 ≤ i < N ∧ 0 ≤ j < N ∧ e = Rd (LocA i j)) t)))
      as (x & s' & t & Hrun & -> & -> & Hw & Hr & Ht).
    { apply wp_valid1_reads; [exact Hwf|]. intros t Hw Hr Ht.
      split_and!; [reflexivity|reflexivity|exact Hw|exact Hr|exact Ht]. }
    exists t. split_and!; [exact Hrun|exact Hw|exact Hr|].
    intros l Hl%elem_of_reads. rewrite Forall_forall in Ht.
    destruct (Ht _ Hl) as (i & j & Hi & Hj & [= ->]). eauto.
  - destruct (proj1 (wp_run valid2 s (λ x s' t,
      x = sum_c s ∧ s' = s ∧ writes t = [] ∧
      Z.of_nat (length (reads t)) = N ∧
      Forall (λ e, ∃ i, 0 ≤ i < N ∧ e = Rd (LocC i)) t)))
      as (x & s' & t & Hrun & -> & -> & Hw & Hr & Ht).
    { apply wp_valid2_reads; [exact Hwf|]. intros t Hw Hr Ht.
      split_and!; [reflexivity|reflexivity|exact Hw|exact Hr|exact Ht]. }
    exists t. split_and!; [exact Hrun|exact Hw|exact Hr|].
    intros l Hl%elem_of_reads. rewrite Forall_forall in Ht.
    destruct (Ht _ Hl) as (i & Hi & [= ->]). eauto.
Qed.

(** ** The report of the OpenMP configuration *)

(** X16. The names of the schedule kinds: when the four kinds of the
    header are distinct, each gets its own name, a value is named
    ["unknown"] exactly when it is none of the four, and two values
    with the same name other than ["unknown"] are the same kind. *)
Theorem omp_sched_to_cstr_names (K : omp_kinds) :
  kinds_distinct K →
  omp_sched_to_cstr K (omp_sched_static K) = "static" ∧
  omp_sched_to_cstr K (omp_sched_dynamic K) = "dynamic" ∧
  omp_sched_to_cstr K (omp_sched_guided K) = "guided" ∧
  omp_sched_to_cstr K (omp_sched_auto K) = "auto" ∧
  (∀ k, omp_sched_to_cstr K k = "unknown" ↔
        k ≠ omp_sched_static K ∧ k ≠ omp_sched_dynamic K ∧
        k ≠ omp_sched_guided K ∧ k ≠ omp_sched_auto K) ∧
  (∀ k1 k2, omp_sched_to_cstr K k1 = omp_sched_to_cstr K k2 →
            omp_sched_to_cstr K k1 ≠ "unknown" → k1 = k2).
Proof.
  unfold kinds_distinct. rewrite !NoDup_cons, !not_elem_of_cons.
  intros ((H12 & H13 & H14 & _) & (H23 & H24 & _) & (H34 & _) & _).
  unfold omp_sched_to_cstr. split_and!.
  - by rewrite Z.eqb_refl.
  - rewrite (proj2 (Z.eqb_neq _ _)) by congruence. by rewrite Z.eqb_refl.
  - rewrite !(proj2 (Z.eqb_neq (omp_sched_guided K) _)) by congruence.
    by rewrite Z.eqb_refl.
  - rewrite !(proj2 (Z.eqb_neq (omp_sched_auto K) _)) by congruence.
    by rewrite Z.eqb_refl.
  - intros k.
    destruct (Z.eqb_spec k (omp_sched_static K));
      destruct (Z.eqb_spec k (omp_sched_dynamic K));
      destruct (Z.eqb_spec k (omp_sched_guided K));
      destruct (Z.eqb_spec k (omp_sched_auto K));
      split; try done; intros (? & ? & ? & ?); done.
  - intros k1 k2.
    destruct (Z.eqb_spec k1 (omp_sched_static K));
      destruct (Z.eqb_spec k1 (omp_sched_dynamic K));
      destruct (Z.eqb_spec k1 (omp_sched_guided K));
      destruct (Z.eqb_spec k1 (omp_sched_auto K));
      destruct (Z.eqb_spec k2 (omp_sched_static K));
      destruct (Z.eqb_spec k2 (omp_sched_dynamic K));
      destruct (Z.eqb_spec k2 (omp_sched_guided K));
      destruct (Z.eqb_spec k2 (omp_sched_auto K));
      intros Heq Hnamed; try done; congruence.
Qed.

Lemma append_inv_head (p x y : string) : p +:+ x = p +:+ y → x = y.
Proof. induction p as [|c p IH]; [done|]. simpl. intros [= Heq]. by apply IH. Qed.

(** A string is cut in one way only at the first occurrence of a
    character. *)
Lemma append_cut (c : ascii) (x y r r' : string) :
  has_char c x = false → has_char c y = false →
  x +:+ String c r = y +:+ String c r' → x = y ∧ r = r'.
Proof.
  revert y. induction x as [|a x IH]; intros [|a' y] Hx Hy Heq; simpl in *.
  - by injection Heq.
  - injection Heq as -> _. by rewrite Ascii.eqb_refl in Hy.
  - injection Heq as -> _. by rewrite Ascii.eqb_refl in Hx.
  - injection Heq as -> Heq.
    apply orb_false_elim in Hx as [_ Hx], Hy as [_ Hy].
    destruct (IH y Hx Hy Heq) as [-> ->]. done.
Qed.

Lemma has_char_uint (c : ascii) (d : Decimal.uint) :
  has_char c "0123456789" = false →
  has_char c (NilEmpty.string_of_uint d) = false.
Proof.
  intros Hc. simpl in Hc.
  repeat (apply orb_false_elim in Hc as [? Hc]).
  induction d as [|d IH|d IH|d IH|d IH|d IH|d IH|d IH|d IH|d IH|d IH];
    simpl; [done|..]; apply orb_false_intro; done.
Qed.

Lemma has_char_fmt_d (c : ascii) (z : Z) :
  has_char c "-0123456789" = false → has_char c (fmt_d z) = false.
Proof.
  intros Hc. change (Ascii.eqb c "-" || has_char c "0123456789" = false) in Hc.
  apply orb_false_elim in Hc as [Hminus Hc].
  unfold fmt_d. destruct (Z.to_int z) as [d|d]; simpl.
  - by apply has_char_uint.
  - rewrite Hminus. by apply has_char_uint.
Qed.

Lemma fmt_d_inj z1 z2 : fmt_d z1 = fmt_d z2 → z1 = z2.
Proof.
  unfold fmt_d. intros Heq.
  assert (Z.to_int z1 = Z.to_int z2) as Hint.
  { apply (inj Some). by rewrite <- !NilEmpty.isi, Heq. }
  by rewrite <- (DecimalZ.of_to z1), <- (DecimalZ.of_to z2), Hint.
Qed.

Lemma has_char_name K k : has_char " " (omp_sched_to_cstr K k) = false.
Proof. unfold omp_sched_to_cstr. by repeat case_match. Qed.

(** X17. The report identifies the configuration: two runtimes whose
    report lines are equal have the same number of threads, the same
    number of processors, the same chunk size and the same name of
    schedule. *)
Theorem print_omp_config_identifies (K : omp_kinds) (rt1 rt2 : omp_runtime) :
  print_omp_config K rt1 = print_omp_config K rt2 →
  rt_max_threads rt1 = rt_max_threads rt2 ∧
  rt_num_procs rt1 = rt_num_procs rt2 ∧
  rt_chunk rt1 = rt_chunk rt2 ∧
  omp_sched_to_cstr K (rt_kind rt1) = omp_sched_to_cstr K (rt_kind rt2).
Proof.
  unfold print_omp_config. intros Heq.
  apply append_inv_head in Heq.
  apply (append_cut " ") in Heq as [Hthreads Heq];
    [|by apply has_char_fmt_d..].
  apply (append_inv_head "procs=") in Heq.
  apply (append_cut " ") in Heq as [Hprocs Heq];
    [|by apply has_char_fmt_d..].
  apply (append_inv_head "schedule=") in Heq.
  apply (append_cut " ") in Heq as [Hname Heq];
    [|by apply has_char_name..].
  apply (append_inv_head "chunk=") in Heq.
  apply (append_cut newline) in Heq as [Hchunk _];
    [|by apply has_char_fmt_d..].
  split_and!; [by apply fmt_d_inj..|exact Hname].
Qed.

(** ** The load of the benchmark *)

Lemma heavy_rows_counted :
  length (filter (λ m, m = N) (jmax_spec <$> seqZ 0 N)) = 67%nat.
Proof. vm_compute. reflexivity. Qed.

Lemma jmax_spec_first i : 0 ≤ i < 30 → jmax_spec i = N.
Proof.
  intros Hi. unfold jmax_spec. rewrite Z.div_small by lia.
  rewrite decide_True; [reflexivity|]. apply Z.mod_1_r.
Qed.

(** X18. The load [init2] sets up: after [init2], on any well-formed
    memory, exactly 67 of the [N = 729] rows are heavy (bound [N]), the
    first 30 rows among them. *)
Theorem init2_load (s : mem) :
  wf s →
  ∃ s', exec init2 s = Some s' ∧
    length (filter (λ m, m = N) (jmax s')) = 67%nat ∧
    (∀ i, 0 ≤ i < 30 → get (jmax s') i = Some N).
Proof.
  intros Hwf.
  destruct (exec_wp init2 s (λ s', wf s' ∧
    ∀ i, 0 ≤ i < N → jmax_at s' i = jmax_spec i))
    as (s' & Hrun & Hwf' & Hjm).
  { apply wp_init2; [exact Hwf|]. intros s' t Hwf' _ Hjc _.
    split; [exact Hwf'|]. intros i Hi. by apply Hjc. }
  exists s'. split; [exact Hrun|].
  assert (jmax s' = jmax_spec <$> seqZ 0 N) as Hlist.
  { apply (get_default_ext 0 _ _ (Z.to_nat N)).
    - apply Hwf'.
    - by rewrite length_fmap, length_seqZ.
    - intros i Hi. fold (jmax_at s' i). rewrite Hjm by lia.
      unfold get. destruct (Z.ltb_spec i 0); [lia|].
      rewrite list_lookup_fmap, lookup_seqZ_lt by lia.
      simpl. f_equal. lia. }
  split.
  - rewrite Hlist. exact heavy_rows_counted.
  - intros i Hi. rewrite jmax_at_get_Some by (assumption || unfold N; lia).
    rewrite Hjm by (unfold N; lia). apply (f_equal Some).
    by apply jmax_spec_first.
Qed.

(** ** The memories the initialisers leave from [mem0] *)

Lemma wf_mem0 : wf mem0.
Proof.
  split; unfold mem0; cbn [a b c jmax].
  - split; [apply length_replicate|]. apply Forall_replicate, length_replicate.
  - split; [apply length_replicate|]. apply Forall_replicate, length_replicate.
  - apply length_replicate.
  - apply length_replicate.
Qed.


Lemma get_tabulate {A} (f : Z → A) i :
  0 ≤ i < N → get (f <$> seqZ 0 N) i = Some (f i).
Proof.
  intros Hi. unfold get. destruct (Z.ltb_spec i 0); [lia|].
  rewrite list_lookup_fmap, lookup_seqZ_lt by lia.
  cbn [fmap option_fmap option_map]. apply (f_equal Some), (f_equal f). lia.
Qed.

Lemma get_replicate {A} (x : A) i :
  0 ≤ i < N → get (replicate (Z.to_nat N) x) i = Some x.
Proof.
  intros Hi. unfold get. destruct (Z.ltb_spec i 0); [lia|].
  apply lookup_replicate_2. lia.
Qed.

Lemma matrix_ok_tabulate (f : Z → Z → float) :
  matrix_ok ((λ i, f i <$> seqZ 0 N) <$> seqZ 0 N).
Proof.
  split.
  - rewrite length_fmap, length_seqZ. reflexivity.
  - apply Forall_fmap, Forall_forall. intros i _.
    cbn [compose]. rewrite length_fmap, length_seqZ. reflexivity.
Qed.

Lemma wf_mem_init1 : wf mem_init1.
Proof.
  split; unfold mem_init1; cbn [a b c jmax].
  - apply wf_mem0.
  - apply matrix_ok_tabulate.
  - apply wf_mem0.
  - apply wf_mem0.
Qed.

Lemma wf_mem_init2 : wf mem_init2.
Proof.
  split; unfold mem_init2; cbn [a b c jmax].
  - apply wf_mem0.
  - apply matrix_ok_tabulate.
  - apply wf_mem0.
  - rewrite length_fmap, length_seqZ. reflexivity.
Qed.

Lemma a_at_mem0 i j : 0 ≤ i < N → 0 ≤ j < N → a_at mem0 i j = 0%float.
Proof.
  intros Hi Hj. unfold a_at, get2, mem0; cbn [a].
  rewrite get_replicate by exact Hi. rewrite get_replicate by exact Hj.
  reflexivity.
Qed.

Lemma c_at_mem0 i : 0 ≤ i < N → c_at mem0 i = 0%float.
Proof.
  intros Hi. unfold c_at, mem0; cbn [c].
  rewrite get_replicate by exact Hi. reflexivity.
Qed.

Lemma b_at_tabulate (f : Z → Z → float) s i j :
  b s = (λ i, f i <$> seqZ 0 N) <$> seqZ 0 N →
  0 ≤ i < N → 0 ≤ j < N → b_at s i j = f i j.
Proof.
  intros Hb Hi Hj. unfold b_at, get2. rewrite Hb.
  rewrite get_tabulate by exact Hi. rewrite get_tabulate by exact Hj.
  reflexivity.
Qed.

Lemma init1_mem0 : exec init1 mem0 = Some mem_init1.
Proof.
  destruct (exec_wp init1 mem0 (λ s', s' = mem_init1)) as (s' & Hrun & Heq).
  - apply wp_init1; [exact wf_mem0|]. intros s' t Hwf Hc Hjm Hcells.
    apply mem_ext; [exact Hwf|exact wf_mem_init1|..].
    + intros i j Hi Hj. rewrite (proj1 (Hcells i j Hi Hj)).
      symmetry. exact (a_at_mem0 i j Hi Hj).
    + intros i j Hi Hj. rewrite (proj2 (Hcells i j Hi Hj)).
      symmetry. exact (b_at_tabulate b_init1 mem_init1 i j eq_refl Hi Hj).
    + intros i Hi. unfold c_at. rewrite Hc. reflexivity.
    + intros i Hi. unfold jmax_at. rewrite Hjm. reflexivity.
  - rewrite <- Heq. exact Hrun.
Qed.

Lemma init2_mem0 : exec init2 mem0 = Some mem_init2.
Proof.
  destruct (exec_wp init2 mem0 (λ s', s' = mem_init2)) as (s' & Hrun & Heq).
  - apply wp_init2; [exact wf_mem0|]. intros s' t Hwf Ha Hjc Hb.
    apply mem_ext; [exact Hwf|exact wf_mem_init2|..].
    + intros i j Hi Hj. unfold a_at. rewrite Ha. reflexivity.
    + intros i j Hi Hj. rewrite (Hb i j Hi Hj).
      symmetry. exact (b_at_tabulate b_init2 mem_init2 i j eq_refl Hi Hj).
    + intros i Hi. rewrite (proj2 (Hjc i Hi)).
      symmetry. exact (c_at_mem0 i Hi).
    + intros i Hi. rewrite (proj1 (Hjc i Hi)).
      unfold jmax_at, mem_init2; cbn [jmax].
      rewrite get_tabulate by exact Hi. reflexivity.
  - rewrite <- Heq. exact Hrun.
Qed.


(** ** The parallel loops *)

(** *** A loop over an empty range *)

Lemma rows_of_empty E lo hi t : hi ≤ lo → rows_of E lo hi t = [].
Proof. intros Hle. unfold rows_of. by rewrite seqZ_nil by lia. Qed.

Lemma thread_step_idle {PC} (body : Z → PC → act (option PC)) entry t cf :
  Forall (λ th, rows th = []) (team cf) →
  thread_step body entry t cf = Some cf.
Proof.
  intros Hidle. unfold thread_step.
  destruct (team cf !! t) as [[r p]|] eqn:Hth; [|reflexivity].
  apply (Forall_lookup_1 _ _ _ _ Hidle) in Hth. cbn [rows] in Hth.
  rewrite Hth. reflexivity.
Qed.

Lemma run_idle {PC} (body : Z → PC → act (option PC)) entry steps cf :
  Forall (λ th, rows th = []) (team cf) →
  run body entry steps cf = Some cf.
Proof.
  intros Hidle. induction steps as [|t steps IH]; [reflexivity|].
  cbn [run]. rewrite thread_step_idle by exact Hidle. exact IH.
Qed.

Lemma finished_idle {PC} (cf : config PC) :
  Forall (λ th, rows th = []) (team cf) → finished cf = true.
Proof.
  intros Hidle. unfold finished. apply forallb_forall.
  intros th Hin%list_elem_of_In.
  rewrite Forall_forall in Hidle. rewrite (Hidle th Hin). reflexivity.
Qed.

Lemma parallel_for_empty {PC} (body : Z → PC → act (option PC)) entry
    E lo hi s :
  hi ≤ lo → parallel_for body entry E lo hi s = Some (tt, s, []).
Proof.
  intros Hle. unfold parallel_for, parallel_for_log.
  assert (Forall (λ th : thread PC, rows th = [])
            (team (fork entry E lo hi s))) as Hidle.
  { unfold fork; cbn [team]. apply Forall_fmap, Forall_forall.
    intros t _. cbn [compose rows]. by apply rows_of_empty. }
  rewrite (run_idle body entry _ _ Hidle), (finished_idle _ Hidle).
  reflexivity.
Qed.

Lemma for_range_empty lo hi (body : Z → M unit) s :
  hi ≤ lo → for_range lo hi body s = Some (tt, s, []).
Proof.
  intros Hle. unfold for_range, fold_range.
  by replace (Z.to_nat (hi - lo)) with 0%nat by lia.
Qed.

(** C8. Empty range: whatever the team and the order of its steps,
    [loop1chunk] on [0, 0) and [loop2chunk] on [N, N) run no iteration,
    make no access, not even to the shared counters, and leave the
    whole memory as it is; and so do the loops the specification
    describes. *)
Theorem empty_range_unchanged (E1 E2 : execution) (s : mem) :
  (loop1chunk E1 0 0 s = Some (tt, s, []) ∧
   loop2chunk E2 N N s = Some (tt, s, [])) ∧
  (runKernelA 0 0 s = Some (tt, s, []) ∧ runKernelB N N s = Some (tt, s, [])).
Proof.
  split; split;
    [by apply parallel_for_empty..|by apply for_range_empty|by apply for_range_empty].
Qed.

(** ** One thread *)

Lemma run_app {PC} (body : Z → PC → act (option PC)) entry steps1 steps2 cf :
  run body entry (steps1 ++ steps2) cf
  = run body entry steps1 cf ≫= run body entry steps2.
Proof.
  revert cf. induction steps1 as [|t steps1 IH]; intros cf; [reflexivity|].
  cbn [app run]. destruct (thread_step body entry t cf); [apply IH|reflexivity].
Qed.

Lemma reaches_refl {PC} (body : Z → PC → act (option PC)) entry cf :
  reaches body entry cf cf.
Proof. by exists 0%nat. Qed.

Lemma reaches_trans {PC} (body : Z → PC → act (option PC)) entry cf1 cf2 cf3 :
  reaches body entry cf1 cf2 → reaches body entry cf2 cf3 →
  reaches body entry cf1 cf3.
Proof.
  intros [n1 H1] [n2 H2]. exists (n1 + n2)%nat.
  rewrite replicate_add, run_app, H1. exact H2.
Qed.

Lemma reaches_step {PC} (body : Z → PC → act (option PC)) entry
    i rest p f l next f' evs :
  body i p f = Some (next, f', evs) →
  reaches body entry
    (Config [Thread (i :: rest) p] f l)
    (Config [match next with
             | Some p' => Thread (i :: rest) p'
             | None => Thread rest entry
             end] f' (l ++ (pair i <$> evs))).
Proof.
  intros Hstep. exists 1%nat. cbn [replicate run].
  unfold thread_step. cbn [team lookup list_lookup shared accesses].
  rewrite Hstep. reflexivity.
Qed.

Lemma bind_Some {A B} (m : M A) (f : A → M B) s y s2 t :
  bind m f s = Some (y, s2, t) →
  ∃ x s1 t1 t2, m s = Some (x, s1, t1) ∧ f x s1 = Some (y, s2, t2) ∧
                t = t1 ++ t2.
Proof.
  unfold bind. destruct (m s) as [[[x s1] t1]|]; [|intros [=]].
  destruct (f x s1) as [[[y' s2'] t2]|] eqn:Hf; [|intros [=]].
  intros [= -> -> <-]. by exists x, s1, t1, t2.
Qed.

Lemma array_events_app t1 t2 :
  array_events (t1 ++ t2) = array_events t1 ++ array_events t2.
Proof. apply filter_app. Qed.

Lemma array_events_log (l : list (Z * event)) i evs :
  array_events (l ++ (pair i <$> evs)).*2
  = array_events l.*2 ++ array_events evs.
Proof.
  rewrite fmap_app, array_events_app. f_equal. f_equal.
  rewrite <- list_fmap_compose. apply list_fmap_id.
Qed.

Lemma loop1_stmt_events i ja jb s x s' t :
  loop1_stmt i ja jb s = Some (x, s', t) → array_events t = t.
Proof.
  unfold loop1_stmt. intros (v & s1 & t1 & t1' & H1 & H2 & ->)%bind_Some.
  apply bind_Some in H2 as (w & s2 & t2 & t3 & H2 & H3 & ->).
  unfold load_a in H1. destruct (get2 (a s) i ja); [|discriminate].
  injection H1 as <- <- <-.
  unfold load_b in H2. destruct (get2 (b s) i jb); [|discriminate].
  injection H2 as <- <- <-.
  unfold store_a in H3. destruct (get2 (a s) i ja); [|discriminate].
  injection H3 as <- <- <-. reflexivity.
Qed.

(** The inner loop of Kernel A, from its test. *)
Lemma loop1_inner i rest k0 (n : nat) : ∀ jv s s' t l,
  n = Z.to_nat (jv - i) →
  for_dn n jv (λ j, loop1_stmt i j j) s = Some (tt, s', t) →
  ∃ l' j',
    reaches loop1_body L1_init
      (Config [Thread (i :: rest) L1_cond] (Frame s (Some jv) k0) l)
      (Config [Thread rest L1_init] (Frame s' j' k0) l') ∧
    array_events l'.*2 = array_events l.*2 ++ t.
Proof.
  induction n as [|n IH]; intros jv s s' t l Hn Hrun.
  - injection Hrun as <- <-. eexists _, _. split.
    + eapply reaches_trans; [|apply reaches_refl].
      apply (reaches_step loop1_body L1_init i rest L1_cond
               (Frame s (Some jv) k0) l None (Frame s (Some jv) k0) [Rd LocJ]).
      unfold loop1_body, act_bind, get_j, act_ret; cbn [ctr_j].
      destruct (Z.gtb_spec jv i); [lia|reflexivity].
    + rewrite array_events_log. reflexivity.
  - cbn [for_dn] in Hrun.
    apply bind_Some in Hrun as ([] & s1 & t1 & t2 & Hstmt & Hrest & ->).
    destruct (IH (jv - 1) s1 s' t2
      (l ++ (pair i <$> [Rd LocJ]) ++ (pair i <$> Rd LocJ :: Rd LocJ :: t1)
         ++ (pair i <$> [Rd LocJ; Wr LocJ]))) as (l' & j' & Hreach & Hev);
      [lia|exact Hrest|].
    exists l', j'. split.
    + eapply reaches_trans.
      { apply (reaches_step loop1_body L1_init i rest L1_cond
                 (Frame s (Some jv) k0) l (Some L1_stmt)
                 (Frame s (Some jv) k0) [Rd LocJ]).
        unfold loop1_body, act_bind, get_j, act_ret; cbn [ctr_j].
        destruct (Z.gtb_spec jv i); [reflexivity|lia]. }
      eapply reaches_trans.
      { apply (reaches_step loop1_body L1_init i rest L1_stmt
                 (Frame s (Some jv) k0) _ (Some L1_next)
                 (Frame s1 (Some jv) k0) (Rd LocJ :: Rd LocJ :: t1)).
        unfold loop1_body, act_bind, get_j, on_heap, act_ret;
          cbn [ctr_j ctr_k heap].
        rewrite Hstmt. rewrite app_nil_r. reflexivity. }
      eapply reaches_trans.
      { apply (reaches_step loop1_body L1_init i rest L1_next
                 (Frame s1 (Some jv) k0) _ (Some L1_cond)
                 (Frame s1 (Some (jv - 1)) k0) [Rd LocJ; Wr LocJ]).
        reflexivity. }
      rewrite <- !app_assoc. exact Hreach.
    + rewrite Hev, !fmap_app, !array_events_app, <- !app_assoc.
      f_equal. rewrite <- !list_fmap_compose.
      change (array_events ((snd ∘ pair i) <$> Rd LocJ :: Rd LocJ :: t1))
        with (array_events ((snd ∘ pair i) <$> t1)).
      change (array_events ((snd ∘ pair i) <$> [Rd LocJ])) with (@nil event).
      change (array_events ((snd ∘ pair i) <$> [Rd LocJ; Wr LocJ]))
        with (@nil event).
      cbn [app]. rewrite list_fmap_id.
      rewrite (loop1_stmt_events _ _ _ _ _ _ _ Hstmt). reflexivity.
Qed.

(** The rows of Kernel A, one after the other. *)
Lemma loop1_rows (n : nat) : ∀ lo s s' t l j0 k0,
  fold_up n lo (λ i _, runKernelA_row i) tt s = Some (tt, s', t) →
  ∃ l' j',
    reaches loop1_body L1_init
      (Config [Thread (seqZ lo (Z.of_nat n)) L1_init] (Frame s j0 k0) l)
      (Config [Thread [] L1_init] (Frame s' j' k0) l') ∧
    array_events l'.*2 = array_events l.*2 ++ t.
Proof.
  induction n as [|n IH]; intros lo s s' t l j0 k0 Hrun.
  - injection Hrun as <- <-. exists l, j0. split; [apply reaches_refl|].
    by rewrite app_nil_r.
  - cbn [fold_up] in Hrun.
    apply bind_Some in Hrun as ([] & s1 & t1 & t2 & Hrow & Hrest & ->).
    rewrite seqZ_cons by lia.
    replace (Z.pred (Z.of_nat (S n))) with (Z.of_nat n) by lia.
    destruct (loop1_inner lo (seqZ (Z.succ lo) (Z.of_nat n)) k0
      (Z.to_nat (N - 1 - lo)) (N - 1) s s1 t1 (l ++ (pair lo <$> [Wr LocJ])))
      as (l1 & j1 & Hreach1 & Hev1); [reflexivity|exact Hrow|].
    destruct (IH (Z.succ lo) s1 s' t2 l1 j1 k0) as (l2 & j2 & Hreach2 & Hev2).
    { replace (Z.succ lo) with (lo + 1) by lia. exact Hrest. }
    exists l2, j2. split.
    + eapply reaches_trans.
      { apply (reaches_step loop1_body L1_init lo _ L1_init (Frame s j0 k0) l
                 (Some L1_cond) (Frame s (Some (N - 1)) k0) [Wr LocJ]).
        reflexivity. }
      eapply reaches_trans; [exact Hreach1|exact Hreach2].
    + rewrite Hev2, Hev1, array_events_log, <- !app_assoc. reflexivity.
Qed.

Lemma seqZ_to_nat lo n : seqZ lo (Z.of_nat (Z.to_nat n)) = seqZ lo n.
Proof. unfold seqZ. by rewrite Nat2Z.id. Qed.

Lemma rows_of_one_thread m lo hi :
  rows_of (one_thread m) lo hi 0 = seqZ lo (hi - lo).
Proof.
  unfold rows_of. induction (seqZ lo (hi - lo)) as [|i l IH]; [reflexivity|].
  rewrite filter_cons_True by reflexivity. by rewrite IH.
Qed.

(** Thread [0] alone, with steps to spare. *)
Lemma parallel_for_one_thread {PC} (body : Z → PC → act (option PC)) entry
    lo hi s f' l' n :
  run body entry (replicate n 0%nat)
    (Config [Thread (seqZ lo (hi - lo)) entry] (Frame s None None) [])
  = Some (Config [Thread [] entry] f' l') →
  ∀ m, (n ≤ m)%nat →
    parallel_for body entry (one_thread m) lo hi s = Some (tt, heap f', l'.*2).
Proof.
  intros Hrun m Hm. unfold parallel_for, parallel_for_log, fork.
  change (team_size (one_thread m)) with 1%nat.
  change (order (one_thread m)) with (replicate m 0%nat).
  cbn [seq fmap list_fmap]. rewrite rows_of_one_thread.
  replace m with (n + (m - n))%nat by lia.
  rewrite replicate_add, run_app, Hrun. cbn [mbind option_bind].
  rewrite run_idle by (cbn [team]; by apply Forall_singleton).
  reflexivity.
Qed.

Lemma loop1chunk_refines lo hi s s' t :
  runKernelA lo hi s = Some (tt, s', t) →
  ∃ n, ∀ m, (n ≤ m)%nat →
    ∃ t', loop1chunk (one_thread m) lo hi s = Some (tt, s', t') ∧
          array_events t' = t.
Proof.
  unfold runKernelA, for_range, fold_range. intros Hrun.
  destruct (loop1_rows _ lo s s' t [] None None Hrun)
    as (l' & j' & [n Hreach] & Hev).
  rewrite seqZ_to_nat in Hreach.
  exists n. intros m Hm. exists l'.*2. split; [|exact Hev].
  unfold loop1chunk.
  exact (parallel_for_one_thread loop1_body L1_init lo hi s _ _ n Hreach m Hm).
Qed.

Lemma loop2_stmt_events rN2 i j k s x s' t :
  loop2_stmt rN2 i j k s = Some (x, s', t) → array_events t = t.
Proof.
  unfold loop2_stmt. intros (v & s1 & t1 & t1' & H1 & H2 & ->)%bind_Some.
  apply bind_Some in H2 as (w & s2 & t2 & t3 & H2 & H3 & ->).
  unfold load_c in H1. destruct (get (c s) i); [|discriminate].
  injection H1 as <- <- <-.
  unfold load_b in H2. destruct (get2 (b s) i j); [|discriminate].
  injection H2 as <- <- <-.
  unfold store_c in H3. destruct (get (c s) i); [|discriminate].
  injection H3 as <- <- <-. reflexivity.
Qed.

(** The loop on [k] of Kernel B, from its test. *)
Lemma loop2_inner_k rN2 i rest (n : nat) : ∀ jv kv s s' t l,
  n = Z.to_nat (jv - kv) →
  fold_up n kv (λ k _, loop2_stmt rN2 i jv k) tt s = Some (tt, s', t) →
  ∃ l' k',
    reaches (loop2_body rN2) L2_j_init
      (Config [Thread (i :: rest) L2_k_cond] (Frame s (Some jv) (Some kv)) l)
      (Config [Thread (i :: rest) L2_j_next] (Frame s' (Some jv) k') l') ∧
    array_events l'.*2 = array_events l.*2 ++ t.
Proof.
  induction n as [|n IH]; intros jv kv s s' t l Hn Hrun.
  - injection Hrun as <- <-. eexists _, _. split.
    + apply (reaches_step (loop2_body rN2) L2_j_init i rest L2_k_cond
               (Frame s (Some jv) (Some kv)) l (Some L2_j_next)
               (Frame s (Some jv) (Some kv)) [Rd LocK; Rd LocJ]).
      unfold loop2_body, act_bind, get_j, get_k, act_ret; cbn [ctr_j ctr_k].
      destruct (Z.ltb_spec kv jv); [lia|reflexivity].
    + rewrite array_events_log. reflexivity.
  - cbn [fold_up] in Hrun.
    apply bind_Some in Hrun as ([] & s1 & t1 & t2 & Hstmt & Hrest & ->).
    destruct (IH jv (kv + 1) s1 s' t2
      (l ++ (pair i <$> [Rd LocK; Rd LocJ])
         ++ (pair i <$> Rd LocK :: Rd LocJ :: t1)
         ++ (pair i <$> [Rd LocK; Wr LocK]))) as (l' & k' & Hreach & Hev);
      [lia|exact Hrest|].
    exists l', k'. split.
    + eapply reaches_trans.
      { apply (reaches_step (loop2_body rN2) L2_j_init i rest L2_k_cond
                 (Frame s (Some jv) (Some kv)) l (Some L2_stmt)
                 (Frame s (Some jv) (Some kv)) [Rd LocK; Rd LocJ]).
        unfold loop2_body, act_bind, get_j, get_k, act_ret; cbn [ctr_j ctr_k].
        destruct (Z.ltb_spec kv jv); [reflexivity|lia]. }
      eapply reaches_trans.
      { apply (reaches_step (loop2_body rN2) L2_j_init i rest L2_stmt
                 (Frame s (Some jv) (Some kv)) _ (Some L2_k_next)
                 (Frame s1 (Some jv) (Some kv)) (Rd LocK :: Rd LocJ :: t1)).
        unfold loop2_body, act_bind, get_j, get_k, on_heap, act_ret;
          cbn [ctr_j ctr_k heap].
        rewrite Hstmt. rewrite app_nil_r. reflexivity. }
      eapply reaches_trans.
      { apply (reaches_step (loop2_body rN2) L2_j_init i rest L2_k_next
                 (Frame s1 (Some jv) (Some kv)) _ (Some L2_k_cond)
                 (Frame s1 (Some jv) (Some (kv + 1))) [Rd LocK; Wr LocK]).
        reflexivity. }
      rewrite <- !app_assoc. exact Hreach.
    + rewrite Hev, !fmap_app, !array_events_app, <- !app_assoc.
      f_equal. rewrite <- !list_fmap_compose.
      change (array_events ((snd ∘ pair i) <$> Rd LocK :: Rd LocJ :: t1))
        with (array_events ((snd ∘ pair i) <$> t1)).
      change (array_events ((snd ∘ pair i) <$> [Rd LocK; Rd LocJ]))
        with (@nil event).
      change (array_events ((snd ∘ pair i) <$> [Rd LocK; Wr LocK]))
        with (@nil event).
      cbn [app]. rewrite list_fmap_id.
      rewrite (loop2_stmt_events _ _ _ _ _ _ _ _ Hstmt). reflexivity.
Qed.

(** The loop on [j] of Kernel B, from its test. *)
Lemma loop2_inner_j rN2 i rest (fuel : nat) : ∀ jv s s' t l k0,
  for_cond fuel jv (λ j, jm <- load_jmax i ;; ret (j <? jm))
    (λ j, for_range 0 j (λ k, loop2_stmt rN2 i j k)) s = Some (tt, s', t) →
  ∃ l' j' k',
    reaches (loop2_body rN2) L2_j_init
      (Config [Thread (i :: rest) L2_j_cond] (Frame s (Some jv) k0) l)
      (Config [Thread rest L2_j_init] (Frame s' j' k') l') ∧
    array_events l'.*2 = array_events l.*2 ++ t.
Proof.
  induction fuel as [|fuel IH]; intros jv s s' t l k0 Hrun; [discriminate|].
  cbn [for_cond] in Hrun.
  apply bind_Some in Hrun as (go & s0 & t0 & t1 & Hcond & Hrest & ->).
  apply bind_Some in Hcond as (jm & s0' & t0' & t0'' & Hjm & Hret & ->).
  injection Hret as <- <- <-.
  assert (s0' = s ∧ t0' = [Rd (LocJmax i)]) as [-> ->].
  { unfold load_jmax in Hjm. destruct (get (jmax s) i); [|discriminate].
    by injection Hjm as <- <- <-. }
  assert (loop2_body rN2 i L2_j_cond (Frame s (Some jv) k0)
          = Some (if jv <? jm then Some L2_k_init else None,
                  Frame s (Some jv) k0, [Rd LocJ; Rd (LocJmax i)])) as Hstep.
  { unfold loop2_body, act_bind, get_j, on_heap, act_ret; cbn [ctr_j ctr_k heap].
    rewrite Hjm. reflexivity. }
  destruct (jv <? jm) eqn:Hgo.
  - apply bind_Some in Hrest as ([] & s1 & t2 & t3 & Hbody & Hnext & ->).
    unfold for_range, fold_range in Hbody.
    destruct (loop2_inner_k rN2 i rest (Z.to_nat (jv - 0)) jv 0 s s1 t2
      (l ++ (pair i <$> [Rd LocJ; Rd (LocJmax i)]) ++ (pair i <$> [Wr LocK])))
      as (l1 & k1 & Hreach1 & Hev1); [reflexivity|exact Hbody|].
    destruct (IH (jv + 1) s1 s' t3 (l1 ++ (pair i <$> [Rd LocJ; Wr LocJ])) k1
      Hnext) as (l2 & j2 & k2 & Hreach2 & Hev2).
    exists l2, j2, k2. split.
    + eapply reaches_trans.
      { apply (reaches_step (loop2_body rN2) L2_j_init i rest L2_j_cond
                 (Frame s (Some jv) k0) l _ _ _ Hstep). }
      eapply reaches_trans.
      { apply (reaches_step (loop2_body rN2) L2_j_init i rest L2_k_init
                 (Frame s (Some jv) k0) _ (Some L2_k_cond)
                 (Frame s (Some jv) (Some 0)) [Wr LocK]).
        reflexivity. }
      rewrite <- app_assoc.
      eapply reaches_trans; [exact Hreach1|].
      eapply reaches_trans; [|exact Hreach2].
      apply (reaches_step (loop2_body rN2) L2_j_init i rest L2_j_next
               (Frame s1 (Some jv) k1) _ (Some L2_j_cond)
               (Frame s1 (Some (jv + 1)) k1) [Rd LocJ; Wr LocJ]).
      reflexivity.
    + rewrite Hev2, array_events_log, Hev1, !fmap_app, !array_events_app.
      rewrite <- !list_fmap_compose, <- !app_assoc. reflexivity.
  - injection Hrest as <- <-. eexists _, _, _. split.
    + apply (reaches_step (loop2_body rN2) L2_j_init i rest L2_j_cond
               (Frame s (Some jv) k0) l _ _ _ Hstep).
    + rewrite array_events_log. reflexivity.
Qed.

(** The rows of Kernel B, one after the other. *)
Lemma loop2_rows (n : nat) : ∀ lo s s' t l j0 k0,
  fold_up n lo (λ i _, runKernelB_row rN2_val i) tt s = Some (tt, s', t) →
  ∃ l' j' k',
    reaches (loop2_body rN2_val) L2_j_init
      (Config [Thread (seqZ lo (Z.of_nat n)) L2_j_init] (Frame s j0 k0) l)
      (Config [Thread [] L2_j_init] (Frame s' j' k') l') ∧
    array_events l'.*2 = array_events l.*2 ++ t.
Proof.
  induction n as [|n IH]; intros lo s s' t l j0 k0 Hrun.
  - injection Hrun as <- <-. exists l, j0, k0. split; [apply reaches_refl|].
    by rewrite app_nil_r.
  - cbn [fold_up] in Hrun.
    apply bind_Some in Hrun as ([] & s1 & t1 & t2 & Hrow & Hrest & ->).
    rewrite seqZ_cons by lia.
    replace (Z.pred (Z.of_nat (S n))) with (Z.of_nat n) by lia.
    destruct (loop2_inner_j rN2_val lo (seqZ (Z.succ lo) (Z.of_nat n))
      runKernelB_fuel 0 s s1 t1 (l ++ (pair lo <$> [Wr LocJ])) k0 Hrow)
      as (l1 & j1 & k1 & Hreach1 & Hev1).
    destruct (IH (Z.succ lo) s1 s' t2 l1 j1 k1) as (l2 & j2 & k2 & Hreach2 & Hev2).
    { replace (Z.succ lo) with (lo + 1) by lia. exact Hrest. }
    exists l2, j2, k2. split.
    + eapply reaches_trans.
      { apply (reaches_step (loop2_body rN2_val) L2_j_init lo _ L2_j_init
                 (Frame s j0 k0) l (Some L2_j_cond) (Frame s (Some 0) k0)
                 [Wr LocJ]).
        reflexivity. }
      eapply reaches_trans; [exact Hreach1|exact Hreach2].
    + rewrite Hev2, Hev1, array_events_log, <- !app_assoc. reflexivity.
Qed.

Lemma loop2chunk_refines lo hi s s' t :
  runKernelB lo hi s = Some (tt, s', t) →
  ∃ n, ∀ m, (n ≤ m)%nat →
    ∃ t', loop2chunk (one_thread m) lo hi s = Some (tt, s', t') ∧
          array_events t' = t.
Proof.
  unfold runKernelB, for_range, fold_range. intros Hrun.
  destruct (loop2_rows _ lo s s' t [] None None Hrun)
    as (l' & j' & k' & [n Hreach] & Hev).
  rewrite seqZ_to_nat in Hreach.
  exists n. intros m Hm. exists l'.*2. split; [|exact Hev].
  unfold loop2chunk.
  exact (parallel_for_one_thread (loop2_body rN2_val) L2_j_init lo hi s _ _ n
           Hreach m Hm).
Qed.

Lemma get2_is_Some m i j :
  matrix_ok m → is_Some (get2 (A:=float) m i j) → 0 ≤ i < N ∧ 0 ≤ j < N.
Proof.
  intros Hm. unfold get2. destruct (get m i) as [r|] eqn:Hr; [|by intros []].
  intros Hj%get_is_Some.
  assert (is_Some (get m i)) as Hi%get_is_Some by eauto.
  rewrite (matrix_ok_row m i r) in Hj by done. destruct Hm. lia.
Qed.

Lemma a_at_get2 s s' i j :
  wf s → wf s' → a_at s' i j = a_at s i j → get2 (a s') i j = get2 (a s) i j.
Proof.
  intros Hwf Hwf' Heq. unfold a_at in Heq.
  destruct (decide (0 ≤ i < N ∧ 0 ≤ j < N)) as [[Hi Hj]|Hout].
  - destruct (matrix_ok_get2 (a s) i j) as [x Hx]; [apply Hwf|done..|].
    destruct (matrix_ok_get2 (a s') i j) as [x' Hx']; [apply Hwf'|done..|].
    rewrite Hx, Hx' in *. simpl in Heq. by subst.
  - destruct (get2 (a s') i j) eqn:E'.
    { destruct (get2_is_Some (a s') i j); [apply Hwf'|eauto|]. lia. }
    destruct (get2 (a s) i j) eqn:E; [|done].
    destruct (get2_is_Some (a s) i j); [apply Hwf|eauto|]. lia.
Qed.

Lemma c_at_get s s' i :
  wf s → wf s' → c_at s' i = c_at s i → get (c s') i = get (c s) i.
Proof.
  intros Hwf Hwf' Heq.
  destruct (decide (0 ≤ i < N)) as [Hi|Hout].
  - rewrite !c_at_get_Some by done. by f_equal.
  - destruct (get (c s') i) eqn:E'.
    { assert (is_Some (get (c s') i)) as ?%get_is_Some by eauto.
      destruct Hwf'. lia. }
    destruct (get (c s) i) eqn:E; [|done].
    assert (is_Some (get (c s) i)) as ?%get_is_Some by eauto.
    destruct Hwf. lia.
Qed.

Lemma exec_Some {A} (m : M A) s x s' t :
  m s = Some (x, s', t) → exec m s = Some s'.
Proof. intros Hrun. unfold exec. by rewrite Hrun. Qed.

(** X20. Kernel A with one thread: for [0 <= lo <= hi <= N], on a
    well-formed memory, the call run by the thread that meets the
    directive alone, given steps enough, is defined and replaces
    [a[i][j]] by [a[i][j] + cos(b[i][j])] for every [i] in [lo, hi)
    and every [j] with [i < j <= N - 1]; every other element of [a]
    keeps its value, and so do [b], [c] and [jmax].  Its accesses to the
    arrays are those of the loop the specification describes, in the
    same order. *)
Theorem loop1chunk_one_thread (lo hi : Z) (s : mem) :
  wf s → 0 ≤ lo → lo ≤ hi → hi ≤ N →
  ∃ n s' t, runKernelA lo hi s = Some (tt, s', t) ∧
    (∀ m, (n ≤ m)%nat →
       ∃ t', loop1chunk (one_thread m) lo hi s = Some (tt, s', t') ∧
             array_events t' = t) ∧
    wf s' ∧
    (∀ i j, lo ≤ i < hi → i + 1 ≤ j ≤ N - 1 →
       get2 (a s') i j = Some (a_at s i j + cos (b_at s i j))%float) ∧
    (∀ i j, ¬ (lo ≤ i < hi ∧ i + 1 ≤ j ≤ N - 1) →
       get2 (a s') i j = get2 (a s) i j) ∧
    b s' = b s ∧ c s' = c s ∧ jmax s' = jmax s.
Proof.
  intros Hwf Hlo Hle Hhi.
  destruct (proj1 (wp_run (runKernelA lo hi) s (λ _ s' _,
    wf s' ∧ b s' = b s ∧ c s' = c s ∧ jmax s' = jmax s ∧
    ∀ i j, a_at s' i j = kernelA_cell (λ i, lo ≤ i < hi) s i j)))
    as ([] & s' & t & Hrun & Hwf' & Hb & Hc & Hjm & Ha).
  { apply wp_runKernelA; [done..|]. intros. by split_and!. }
  destruct (loop1chunk_refines lo hi s s' t Hrun) as [n Hn].
  exists n, s', t. split_and!; try done.
  - intros i j Hi Hj. rewrite a_at_get2_Some by (done || lia).
    rewrite Ha. unfold kernelA_cell. by rewrite decide_True by lia.
  - intros i j Hout. apply a_at_get2; [done..|].
    rewrite Ha. unfold kernelA_cell. by rewrite decide_False by lia.
Qed.

(** X21. Kernel B with one thread: for [0 <= lo <= hi <= N] and row
    bounds [jmax[i] <= N] on the range, on a well-formed memory, the
    call run by one thread, given steps enough, is defined and
    replaces [c[i]], for every [i] in [lo, hi), by the value
    accumulated from it with [(k+1) * log(b[i][j]) * (1/N²)] for [j] in
    [0, jmax[i]) and [k] in [0, j); every other element of [c] keeps its
    value, and so do [a], [b] and [jmax].  Its accesses to the arrays
    are those of the loop the specification describes, in the same
    order. *)
Theorem loop2chunk_one_thread (lo hi : Z) (s : mem) :
  wf s → 0 ≤ lo → lo ≤ hi → hi ≤ N →
  (∀ i, lo ≤ i < hi → jmax_at s i ≤ N) →
  ∃ n s' t, runKernelB lo hi s = Some (tt, s', t) ∧
    (∀ m, (n ≤ m)%nat →
       ∃ t', loop2chunk (one_thread m) lo hi s = Some (tt, s', t') ∧
             array_events t' = t) ∧
    wf s' ∧
    (∀ i, lo ≤ i < hi →
       get (c s') i = Some (kernelB_row s i (c_at s i))) ∧
    (∀ i, ¬ (lo ≤ i < hi) → get (c s') i = get (c s) i) ∧
    a s' = a s ∧ b s' = b s ∧ jmax s' = jmax s.
Proof.
  intros Hwf Hlo Hle Hhi Hjmax.
  destruct (proj1 (wp_run (runKernelB lo hi) s (λ _ s' _,
    wf s' ∧ a s' = a s ∧ b s' = b s ∧ jmax s' = jmax s ∧
    ∀ i, c_at s' i = kernelB_cell (λ i, lo ≤ i < hi) s i)))
    as ([] & s' & t & Hrun & Hwf' & Ha & Hb & Hjm & Hc).
  { apply wp_runKernelB; [done..|]. intros. by split_and!. }
  destruct (loop2chunk_refines lo hi s s' t Hrun) as [n Hn].
  exists n, s', t. split_and!; try done.
  - intros i Hi. rewrite c_at_get_Some by (done || lia).
    rewrite Hc. unfold kernelB_cell. by rewrite decide_True by lia.
  - intros i Hout. apply c_at_get; [done..|].
    rewrite Hc. unfold kernelB_cell. by rewrite decide_False by lia.
Qed.
(** *** The work of one thread *)

Lemma trace_of_Some {A} (m : M A) s x s' t :
  m s = Some (x, s', t) → trace_of m s = Some t.
Proof. intros Hrun. unfold trace_of. by rewrite Hrun. Qed.

(** The outer iteration [i] of Kernel A makes [N - 1 - i] updates, each
    with two reads. *)
Lemma wp_runKernelA_row_work s i Q :
  wf s → 0 ≤ i < N →
  (∀ s' t, wf s' →
     Z.of_nat (length (writes t)) = N - 1 - i →
     Z.of_nat (length (reads t)) = 2 * (N - 1 - i) →
     Q tt s' t) →
  wp (runKernelA_row i) s Q.
Proof.
  intros Hwf Hi HQ. unfold runKernelA_row.
  apply (wp_for_down (N - 1) i _ s (λ j s' t,
    wf s' ∧ Z.of_nat (length (writes t)) = N - 1 - j ∧
    Z.of_nat (length (reads t)) = 2 * (N - 1 - j))).
  - lia.
  - split_and!; [exact Hwf|simpl; lia..].
  - intros k s' t Hk (Hwf' & Hw & Hr). unfold loop1_stmt.
    apply wp_bind, wp_load_a; [exact Hwf'|lia..|].
    apply wp_bind, wp_load_b; [exact Hwf'|lia..|].
    apply wp_store_a; [exact Hwf'|lia..|].
    intros s'' Hwf'' _ _ _ _. split_and!; [exact Hwf''|..].
    + rewrite !writes_app, !length_app. simpl. lia.
    + rewrite !reads_app, !length_app. simpl. lia.
  - intros s' t (Hwf' & Hw & Hr). by apply HQ.
Qed.

Lemma wp_runKernelA_work s lo hi Q :
  wf s → 0 ≤ lo → lo ≤ hi → hi ≤ N →
  (∀ s' t,
     2 * Z.of_nat (length (writes t)) = (hi - lo) * (2 * N - 1 - lo - hi) →
     Z.of_nat (length (reads t)) = 2 * Z.of_nat (length (writes t)) →
     Q tt s' t) →
  wp (runKernelA lo hi) s Q.
Proof.
  intros Hwf Hlo Hle Hhi HQ. unfold runKernelA.
  apply (wp_for_range lo hi _ s (λ k s' t,
    wf s' ∧
    2 * Z.of_nat (length (writes t)) = (k - lo) * (2 * N - 1 - lo - k) ∧
    Z.of_nat (length (reads t)) = 2 * Z.of_nat (length (writes t)))).
  - exact Hle.
  - split_and!; [exact Hwf|simpl; lia..].
  - intros k s' t Hk (Hwf' & Hw & Hr).
    apply wp_runKernelA_row_work; [exact Hwf'|lia|].
    intros s'' t' Hwf'' Hw' Hr'. split_and!; [exact Hwf''|..].
    + rewrite writes_app, length_app, Nat2Z.inj_add. nia.
    + rewrite writes_app, reads_app, !length_app, !Nat2Z.inj_add. lia.
  - intros s' t (_ & Hw & Hr). by apply HQ.
Qed.

Lemma row_work_double jm : 2 * row_work jm = Z.max 0 jm * (Z.max 0 jm - 1).
Proof.
  unfold row_work. generalize (Z.max 0 jm). intros m.
  destruct (Z.Even_or_Odd m) as [[q Hq]|[q Hq]]; subst m.
  - replace (2 * q * (2 * q - 1)) with ((q * (2 * q - 1)) * 2) by lia.
    rewrite Z.div_mul by lia. lia.
  - replace ((2 * q + 1) * (2 * q + 1 - 1)) with (((2 * q + 1) * q) * 2) by lia.
    rewrite Z.div_mul by lia. lia.
Qed.

(** The outer iteration [i] of Kernel B makes [row_work jmax[i]]
    updates. *)
Lemma wp_runKernelB_row_work s i Q :
  wf s → 0 ≤ i < N → jmax_at s i ≤ N →
  (∀ s' t, wf s' → jmax s' = jmax s →
     Z.of_nat (length (writes t)) = row_work (jmax_at s i) →
     Q tt s' t) →
  wp (runKernelB_row rN2_val i) s Q.
Proof.
  intros Hwf Hi Hjm HQ. unfold runKernelB_row.
  set (Inv := λ (j : Z) (s' : mem) (t : trace),
    wf s' ∧ jmax s' = jmax s ∧
    2 * Z.of_nat (length (writes t)) = j * (j - 1)).
  apply (wp_for_cond _ 0 _ _ s Inv Inv (Z.max 0 (jmax_at s i))).
  - lia.
  - unfold runKernelB_fuel. lia.
  - unfold Inv. split_and!; [exact Hwf|reflexivity|simpl; lia].
  - intros k s' t Hk (Hwf' & Hjm' & Hw).
    apply wp_bind, wp_load_jmax; [exact Hwf'|exact Hi|]. apply wp_ret.
    assert (jmax_at s' i = jmax_at s i) as -> by (unfold jmax_at; by rewrite Hjm').
    split; [lia|].
    assert (writes (t ++ [Rd (LocJmax i)] ++ []) = writes t) as Hwt.
    { rewrite writes_app. simpl. apply app_nil_r. }
    destruct (Z.ltb_spec k (jmax_at s i)) as [Hlt|Hge].
    + unfold Inv. rewrite Hwt. by split_and!.
    + apply HQ; [exact Hwf'|exact Hjm'|]. rewrite Hwt.
      assert (k = Z.max 0 (jmax_at s i)) as Hk' by lia.
      pose proof (row_work_double (jmax_at s i)). rewrite <- Hk' in *. lia.
  - intros k s' t Hk (Hwf' & Hjm' & Hw).
    apply (wp_for_range 0 k _ s' (λ kk s'' t',
      wf s'' ∧ jmax s'' = jmax s ∧ Z.of_nat (length (writes t')) = kk)).
    + lia.
    + split_and!; [exact Hwf'|exact Hjm'|reflexivity].
    + intros kk s'' t' Hkk (Hwf'' & Hjm'' & Hw'). unfold loop2_stmt.
      apply wp_bind, wp_load_c; [exact Hwf''|exact Hi|].
      apply wp_bind, wp_load_b; [exact Hwf''|lia..|].
      apply wp_store_c; [exact Hwf''|exact Hi|].
      intros s3 Hwf3 _ _ Hjm3 _. split_and!; [exact Hwf3|congruence|].
      rewrite !writes_app, !length_app. simpl. lia.
    + intros s'' t' (Hwf'' & Hjm'' & Hw').
      unfold Inv. split_and!; [exact Hwf''|exact Hjm''|].
      rewrite writes_app, length_app, Nat2Z.inj_add. nia.
Qed.

Lemma chunk_work_next s lo k :
  lo ≤ k → chunk_work s lo (k + 1) = chunk_work s lo k + row_work (jmax_at s k).
Proof.
  intros Hk. unfold chunk_work.
  replace (k + 1 - lo) with (k - lo + 1) by lia.
  rewrite seqZ_snoc, foldl_snoc by lia.
  by replace (lo + (k - lo)) with k by lia.
Qed.

Lemma wp_runKernelB_work s lo hi Q :
  wf s → 0 ≤ lo → lo ≤ hi → hi ≤ N →
  (∀ i, lo ≤ i < hi → jmax_at s i ≤ N) →
  (∀ s' t, Z.of_nat (length (writes t)) = chunk_work s lo hi → Q tt s' t) →
  wp (runKernelB lo hi) s Q.
Proof.
  intros Hwf Hlo Hle Hhi Hok HQ. unfold runKernelB.
  apply (wp_for_range lo hi _ s (λ k s' t,
    wf s' ∧ jmax s' = jmax s ∧
    Z.of_nat (length (writes t)) = chunk_work s lo k)).
  - exact Hle.
  - split_and!; [exact Hwf|reflexivity|].
    unfold chunk_work. by rewrite seqZ_nil by lia.
  - intros k s' t Hk (Hwf' & Hjm' & Hw).
    assert (jmax_at s' k = jmax_at s k) as Hjk
      by (unfold jmax_at; by rewrite Hjm').
    apply wp_runKernelB_row_work; [exact Hwf'|lia| |].
    { rewrite Hjk. apply Hok. lia. }
    intros s'' t' Hwf'' Hjm'' Hw'. split_and!; [exact Hwf''|congruence|].
    rewrite writes_app, length_app, Nat2Z.inj_add, chunk_work_next by lia.
    rewrite Hw, Hw', Hjk. reflexivity.
  - intros s' t (_ & _ & Hw). by apply HQ.
Qed.

(** X4. The work of Kernel A with one thread: on a well-formed memory
    a call on [lo, hi) run by one thread makes
    [(hi - lo) * (2N - 1 - lo - hi) / 2] updates of [a], which is
    [N - 1 - i] for the one row of [i, i + 1), each with two reads of
    the arrays. *)
Theorem loop1chunk_work (lo hi : Z) (s : mem) :
  wf s → 0 ≤ lo → lo ≤ hi → hi ≤ N →
  ∃ n, ∀ m, (n ≤ m)%nat →
    ∃ t, trace_of (loop1chunk (one_thread m) lo hi) s = Some t ∧
      2 * Z.of_nat (length (writes (array_events t)))
        = (hi - lo) * (2 * N - 1 - lo - hi) ∧
      Z.of_nat (length (reads (array_events t)))
        = 2 * Z.of_nat (length (writes (array_events t))).
Proof.
  intros Hwf Hlo Hle Hhi.
  destruct (proj1 (wp_run (runKernelA lo hi) s (λ _ _ t,
    2 * Z.of_nat (length (writes t)) = (hi - lo) * (2 * N - 1 - lo - hi) ∧
    Z.of_nat (length (reads t)) = 2 * Z.of_nat (length (writes t)))))
    as ([] & s' & t & Hrun & Hw & Hr).
  { apply wp_runKernelA_work; [done..|]. intros. by split. }
  destruct (loop1chunk_refines lo hi s s' t Hrun) as [n Hn].
  exists n. intros m Hm. destruct (Hn m Hm) as (t' & Hrun' & Hev).
  exists t'. rewrite Hev. split; [by eapply trace_of_Some|by split].
Qed.

(** X5. The work of Kernel B with one thread: on a well-formed memory
    with row bounds [jmax[i] <= N], a call on [lo, hi) run by one
    thread makes [m * (m - 1) / 2] updates of [c] for each row of the
    range, where [m] is [jmax[i]], or [0] for a negative bound. *)
Theorem loop2chunk_work (lo hi : Z) (s : mem) :
  wf s → 0 ≤ lo → lo ≤ hi → hi ≤ N →
  (∀ i, lo ≤ i < hi → jmax_at s i ≤ N) →
  ∃ n, ∀ m, (n ≤ m)%nat →
    ∃ t, trace_of (loop2chunk (one_thread m) lo hi) s = Some t ∧
      Z.of_nat (length (writes (array_events t))) = chunk_work s lo hi.
Proof.
  intros Hwf Hlo Hle Hhi Hok.
  destruct (proj1 (wp_run (runKernelB lo hi) s (λ _ _ t,
    Z.of_nat (length (writes t)) = chunk_work s lo hi)))
    as ([] & s' & t & Hrun & Hw).
  { apply wp_runKernelB_work; [done..|]. intros. done. }
  destruct (loop2chunk_refines lo hi s s' t Hrun) as [n Hn].
  exists n. intros m Hm. destruct (Hn m Hm) as (t' & Hrun' & Hev).
  exists t'. rewrite Hev. split; [by eapply trace_of_Some|done].
Qed.

Lemma accum_row_light (brow : Z → float) jm c0 :
  jm ≤ 1 → accum_row brow jm c0 = c0.
Proof.
  intros Hjm. unfold accum_row.
  destruct (decide (jm ≤ 0)) as [Hle|Hgt].
  - by rewrite seqZ_nil by exact Hle.
  - assert (jm = 1) as -> by lia. reflexivity.
Qed.

(** X6. Light rows with one thread: a call of Kernel B run by one
    thread leaves [c[i]] as it is for every row of its range whose
    bound [jmax[i]] is at most [1]. *)
Theorem loop2chunk_light_rows (lo hi : Z) (s : mem) :
  wf s → 0 ≤ lo → lo ≤ hi → hi ≤ N →
  (∀ i, lo ≤ i < hi → jmax_at s i ≤ N) →
  ∃ n s', (∀ m, (n ≤ m)%nat → exec (loop2chunk (one_thread m) lo hi) s = Some s') ∧
    ∀ i, lo ≤ i < hi → jmax_at s i ≤ 1 → get (c s') i = get (c s) i.
Proof.
  intros Hwf Hlo Hle Hhi Hok.
  destruct (proj1 (wp_run (runKernelB lo hi) s (λ _ s' _,
    wf s' ∧ ∀ i, c_at s' i = kernelB_cell (λ i, lo ≤ i < hi) s i)))
    as ([] & s' & t & Hrun & Hwf' & Hc).
  { apply wp_runKernelB; [done..|]. intros. by split. }
  destruct (loop2chunk_refines lo hi s s' t Hrun) as [n Hn].
  exists n, s'. split.
  - intros m Hm. destruct (Hn m Hm) as (t' & Hrun' & _). by eapply exec_Some.
  - intros i Hi Hlight. apply c_at_get; [exact Hwf|exact Hwf'|].
    rewrite Hc. unfold kernelB_cell. rewrite decide_True by exact Hi.
    unfold kernelB_row. by apply accum_row_light.
Qed.

(** X8. The cells the kernels read with one thread: a call of Kernel A
    run by one thread reads, of the arrays, only cells [a[i][j]] and
    [b[i][j]] with [i] in its range and [i < j < N], so never [c],
    [jmax] or a cell on or below the diagonal; a call of Kernel B reads
    only [jmax[i]], [c[i]] and cells [b[i][j]] with [0 < j < jmax[i]],
    so never [a] and never the first column of [b]. *)
Theorem kernel_reads (lo hi : Z) (s : mem) :
  wf s → 0 ≤ lo → lo ≤ hi → hi ≤ N →
  (∀ i, lo ≤ i < hi → jmax_at s i ≤ N) →
  ∃ n, ∀ m, (n ≤ m)%nat →
    (∃ t, trace_of (loop1chunk (one_thread m) lo hi) s = Some t ∧
       ∀ l, l ∈ reads (array_events t) →
         ∃ i j, lo ≤ i < hi ∧ i < j < N ∧ (l = LocA i j ∨ l = LocB i j)) ∧
    (∃ t, trace_of (loop2chunk (one_thread m) lo hi) s = Some t ∧
       ∀ l, l ∈ reads (array_events t) →
         ∃ i, lo ≤ i < hi ∧
           (l = LocJmax i ∨ l = LocC i ∨
            ∃ j, 0 < j < jmax_at s i ∧ l = LocB i j)).
Proof.
  intros Hwf Hlo Hle Hhi Hok.
  destruct (proj1 (wp_run (runKernelA lo hi) s (λ _ _ t,
    Forall (λ e, ∃ i, lo ≤ i < hi ∧ ev_loop1 i e) t)))
    as ([] & sA & tA & HrunA & HevA).
  { apply wp_runKernelA; [done..|]. intros. done. }
  destruct (proj1 (wp_run (runKernelB lo hi) s (λ _ _ t,
    Forall (λ e, ∃ i, lo ≤ i < hi ∧ ev_loop2 (jmax_at s i) i e) t)))
    as ([] & sB & tB & HrunB & HevB).
  { apply wp_runKernelB; [done..|]. intros. done. }
  destruct (loop1chunk_refines lo hi s sA tA HrunA) as [nA HnA].
  destruct (loop2chunk_refines lo hi s sB tB HrunB) as [nB HnB].
  exists (nA `max` nB)%nat. intros m Hm. split.
  - destruct (HnA m ltac:(lia)) as (t' & Hrun' & Hev).
    exists t'. rewrite Hev. split; [by eapply trace_of_Some|].
    intros l Hl%elem_of_reads. rewrite Forall_forall in HevA.
    destruct (HevA _ Hl) as (i & Hi & j & Hj & [Hl'|[Hl'|Hl']]); try done.
    + injection Hl' as ->. exists i, j.
      split; [exact Hi|]. split; [exact Hj|]. by left.
    + injection Hl' as ->. exists i, j.
      split; [exact Hi|]. split; [exact Hj|]. by right.
  - destruct (HnB m ltac:(lia)) as (t' & Hrun' & Hev).
    exists t'. rewrite Hev. split; [by eapply trace_of_Some|].
    intros l Hl%elem_of_reads. rewrite Forall_forall in HevB.
    destruct (HevB _ Hl) as (i & Hi & [Hl'|[Hl'|[Hl'|(j & Hj & Hl')]]]);
      try done.
    + injection Hl' as ->. exists i. split; [exact Hi|]. by left.
    + injection Hl' as ->. exists i. split; [exact Hi|]. right. by left.
    + injection Hl' as ->. exists i. split; [exact Hi|]. right. right.
      by exists j.
Qed.

(** ** Any team *)

Lemma run_invariant {PC} (body : Z → PC → act (option PC)) entry
    (P : config PC → Prop) :
  (∀ t cf cf', P cf → thread_step body entry t cf = Some cf' → P cf') →
  ∀ steps cf cf', P cf → run body entry steps cf = Some cf' → P cf'.
Proof.
  intros Hstep steps. induction steps as [|t steps IH]; intros cf cf' HP Hrun.
  - by injection Hrun as <-.
  - cbn [run] in Hrun.
    destruct (thread_step body entry t cf) as [cf1|] eqn:H1; [|discriminate].
    exact (IH cf1 cf' (Hstep t cf cf1 HP H1) Hrun).
Qed.

Lemma thread_step_Some {PC} (body : Z → PC → act (option PC)) entry t cf cf' :
  thread_step body entry t cf = Some cf' →
  cf' = cf ∨
  ∃ i rest p next f' evs,
    team cf !! t = Some (Thread (i :: rest) p) ∧
    body i p (shared cf) = Some (next, f', evs) ∧
    cf' = Config (<[t := match next with
                         | Some p' => Thread (i :: rest) p'
                         | None => Thread rest entry
                         end]> (team cf))
                 f' (accesses cf ++ (pair i <$> evs)).
Proof.
  unfold thread_step.
  destruct (team cf !! t) as [[[|i rest] p]|] eqn:Hth;
    [intros [= <-]; by left| |intros [= <-]; by left].
  destruct (body i p (shared cf)) as [[[next f'] evs]|] eqn:Hbody;
    [|discriminate].
  intros [= <-]. right. by exists i, rest, p, next, f', evs.
Qed.

Lemma parallel_for_log_Some {PC} (body : Z → PC → act (option PC)) entry
    E lo hi s s' l :
  parallel_for_log body entry E lo hi s = Some (s', l) →
  ∃ cf, run body entry (order E) (fork entry E lo hi s) = Some cf ∧
        finished cf = true ∧ heap (shared cf) = s' ∧ accesses cf = l.
Proof.
  unfold parallel_for_log.
  destruct (run body entry (order E) (fork entry E lo hi s)) as [cf|];
    [|discriminate].
  destruct (finished cf) eqn:Hfin; [|discriminate].
  intros [= <- <-]. by exists cf.
Qed.

Lemma elem_of_writes l t : l ∈ writes t ↔ Wr l ∈ t.
Proof.
  unfold writes. rewrite list_elem_of_omap. split.
  - intros ([l'|l'] & Hin & Heq); by simplify_eq.
  - intros Hin. by exists (Wr l).
Qed.

Lemma elem_of_writes_of x i (l : list (Z * event)) :
  x ∈ writes_of i l ↔ (i, Wr x) ∈ l.
Proof.
  unfold writes_of. rewrite elem_of_writes, list_elem_of_fmap. split.
  - intros ([i' e] & Heq & [Hi Hin]%list_elem_of_filter).
    cbn in Heq, Hi. by subst.
  - intros Hin. exists (i, Wr x). split; [reflexivity|].
    apply list_elem_of_filter. by split.
Qed.

(** *** Every outer iteration writes the counter [j] *)

Lemma entry_writes_j {PC} (body : Z → PC → act (option PC)) entry
    E lo hi s cf :
  (∀ i f next f' evs, body i entry f = Some (next, f', evs) → Wr LocJ ∈ evs) →
  run body entry (order E) (fork entry E lo hi s) = Some cf →
  finished cf = true →
  ∀ i, lo ≤ i < hi → (i, Wr LocJ) ∈ accesses cf.
Proof.
  intros Hentry Hrun Hfin.
  set (Inv := λ cf : config PC,
    length (team cf) = team_size E ∧
    ∀ t th, team cf !! t = Some th →
      ∃ done, rows_of E lo hi t = done ++ rows th ∧
        (∀ i, i ∈ done → (i, Wr LocJ) ∈ accesses cf) ∧
        (at_pc th = entry ∨
         ∃ i rest, rows th = i :: rest ∧ (i, Wr LocJ) ∈ accesses cf)).
  assert (Inv cf) as [Hlen Hinv].
  { apply (run_invariant body entry Inv) with (order E) (fork entry E lo hi s);
      [|split|exact Hrun].
    - clear cf Hrun Hfin. intros t cf cf' [Hlen Hinv] Hstep.
      apply thread_step_Some in Hstep
        as [->|(i & rest & p & next & f' & evs & Hth & Hbody & ->)];
        [by split|].
      split; cbn [team accesses]; [by rewrite length_insert|].
      intros t' th' Hth'.
      destruct (decide (t' = t)) as [->|Hne].
      + rewrite list_lookup_insert_eq in Hth' by (by eapply lookup_lt_Some).
        injection Hth' as <-.
        destruct (Hinv t _ Hth) as (done & Hrows & Hdone & Hhead).
        cbn [rows at_pc] in Hrows, Hhead.
        assert ((i, Wr LocJ) ∈ accesses cf ++ (pair i <$> evs)) as Hi.
        { apply elem_of_app. destruct Hhead as [->|(i0 & rest0 & [= <- <-] & Hin)].
          - right. apply list_elem_of_fmap. exists (Wr LocJ).
            split; [reflexivity|]. by eapply Hentry.
          - by left. }
        destruct next as [p'|]; cbn [rows at_pc].
        * exists done. split_and!; [exact Hrows| |right; by exists i, rest].
          intros i0 Hi0. apply elem_of_app. left. by apply Hdone.
        * exists (done ++ [i]). split_and!; [by rewrite <- app_assoc| |by left].
          intros i0 [Hi0|Hi0%list_elem_of_singleton]%elem_of_app;
            [|subst i0; exact Hi].
          apply elem_of_app. left. by apply Hdone.
      + rewrite list_lookup_insert_ne in Hth' by done.
        destruct (Hinv t' th' Hth') as (done & Hrows & Hdone & Hhead).
        exists done. split_and!; [exact Hrows| |].
        * intros i0 Hi0. apply elem_of_app. left. by apply Hdone.
        * destruct Hhead as [Hpc|(i0 & rest0 & Hr & Hin)]; [by left|].
          right. exists i0, rest0. split; [exact Hr|].
          apply elem_of_app. by left.
    - unfold fork; cbn [team]. by rewrite length_fmap, length_seq.
    - unfold fork; cbn [team accesses]. intros t th Hth.
      rewrite list_lookup_fmap in Hth.
      destruct (seq 0 (team_size E) !! t) as [t'|] eqn:Hseq; [|discriminate].
      apply lookup_seq in Hseq as [-> _]. injection Hth as <-.
      exists []. split_and!; [reflexivity| |by left].
      intros i []%elem_of_nil. }
  intros i Hi.
  assert (owner E i `mod` team_size E < length (team cf))%nat as Hlt.
  { rewrite Hlen. apply Nat.mod_upper_bound. unfold team_size. lia. }
  apply lookup_lt_is_Some in Hlt as [th Hth].
  destruct (Hinv _ th Hth) as (done & Hrows & Hdone & _).
  assert (rows th = []) as Hnil.
  { unfold finished in Hfin. rewrite forallb_forall in Hfin.
    assert (th ∈ team cf) as Hin%list_elem_of_In by (by eapply list_elem_of_lookup_2).
    specialize (Hfin th Hin). by destruct (rows th). }
  rewrite Hnil, app_nil_r in Hrows. apply Hdone. rewrite <- Hrows.
  unfold rows_of. apply list_elem_of_filter. split; [reflexivity|].
  apply elem_of_seqZ. lia.
Qed.

(** X22. Every outer iteration writes the shared counter: whatever the
    team, the rows of its threads and the order of their steps, in a
    call of either kernel every outer iteration of the range writes
    [j].  The write sets of any two outer iterations therefore have a
    location in common. *)
Theorem every_iteration_writes_j (E : execution) (lo hi : Z) (s s' : mem)
    (l : list (Z * event)) :
  loop1chunk_log E lo hi s = Some (s', l) ∨
  loop2chunk_log E lo hi s = Some (s', l) →
  ∀ i i', lo ≤ i < hi → lo ≤ i' < hi →
    LocJ ∈ writes_of i l ∧ LocJ ∈ writes_of i' l.
Proof.
  intros Hrun.
  assert (∀ i, lo ≤ i < hi → (i, Wr LocJ) ∈ l) as Hall.
  { destruct Hrun as [Hrun|Hrun];
      apply parallel_for_log_Some in Hrun as (cf & Hrun & Hfin & _ & <-).
    - apply (entry_writes_j loop1_body L1_init E lo hi s cf); [|done..].
      intros i f next f' evs [= _ _ <-]. by left.
    - apply (entry_writes_j (loop2_body rN2_val) L2_j_init E lo hi s cf);
        [|done..].
      intros i f next f' evs [= _ _ <-]. by left. }
  intros i i' Hi Hi'. split; apply elem_of_writes_of, Hall; assumption.
Qed.

(** *** What a call can change, whatever the team does *)

Lemma loop1_stmt_inv i ja jb s x s' t :
  loop1_stmt i ja jb s = Some (x, s', t) →
  b s' = b s ∧ c s' = c s ∧ jmax s' = jmax s ∧
  t = [Rd (LocA i ja); Rd (LocB i jb); Wr (LocA i ja)].
Proof.
  unfold loop1_stmt. intros (v & s1 & t1 & t1' & H1 & H2 & ->)%bind_Some.
  apply bind_Some in H2 as (w & s2 & t2 & t3 & H2 & H3 & ->).
  unfold load_a in H1. destruct (get2 (a s) i ja); [|discriminate].
  injection H1 as <- <- <-.
  unfold load_b in H2. destruct (get2 (b s) i jb); [|discriminate].
  injection H2 as <- <- <-.
  unfold store_a in H3. destruct (get2 (a s) i ja); [|discriminate].
  injection H3 as <- <- <-. by split_and!.
Qed.

Lemma loop2_stmt_inv rN2 i j k s x s' t :
  loop2_stmt rN2 i j k s = Some (x, s', t) →
  a s' = a s ∧ b s' = b s ∧ jmax s' = jmax s ∧
  t = [Rd (LocC i); Rd (LocB i j); Wr (LocC i)].
Proof.
  unfold loop2_stmt. intros (v & s1 & t1 & t1' & H1 & H2 & ->)%bind_Some.
  apply bind_Some in H2 as (w & s2 & t2 & t3 & H2 & H3 & ->).
  unfold load_c in H1. destruct (get (c s) i); [|discriminate].
  injection H1 as <- <- <-.
  unfold load_b in H2. destruct (get2 (b s) i j); [|discriminate].
  injection H2 as <- <- <-.
  unfold store_c in H3. destruct (get (c s) i); [|discriminate].
  injection H3 as <- <- <-. by split_and!.
Qed.

Lemma parallel_for_frame {PC} (body : Z → PC → act (option PC)) entry
    (R : mem → mem → Prop) (W : Z → loc → Prop) :
  (∀ s, R s s) →
  (∀ s1 s2 s3, R s1 s2 → R s2 s3 → R s1 s3) →
  (∀ i p f next f' evs, body i p f = Some (next, f', evs) →
     R (heap f) (heap f') ∧ ∀ x, Wr x ∈ evs → W i x) →
  ∀ E lo hi s s' l, parallel_for_log body entry E lo hi s = Some (s', l) →
    R s s' ∧ ∀ i x, x ∈ writes_of i l → W i x.
Proof.
  intros Hrefl Htrans Hbody E lo hi s s' l
    (cf & Hrun & _ & <- & <-)%parallel_for_log_Some.
  set (Inv := λ cf : config PC,
    R s (heap (shared cf)) ∧ ∀ i x, (i, Wr x) ∈ accesses cf → W i x).
  assert (Inv cf) as [HR HW].
  { apply (run_invariant body entry Inv) with (order E) (fork entry E lo hi s);
      [|split|exact Hrun].
    - clear cf Hrun. intros t cf cf' [HR HW] Hstep.
      apply thread_step_Some in Hstep
        as [->|(i & rest & p & next & f' & evs & Hth & Hstep & ->)];
        [by split|].
      destruct (Hbody _ _ _ _ _ _ Hstep) as [HR' HW'].
      split; cbn [shared accesses]; [by eapply Htrans|].
      intros i' x [Hin|Hin]%elem_of_app; [by apply HW|].
      apply list_elem_of_fmap in Hin as (e & [= -> <-] & Hin). by apply HW'.
    - apply Hrefl.
    - intros i x []%elem_of_nil. }
  split; [exact HR|]. intros i x Hin%elem_of_writes_of. by apply HW.
Qed.

Lemma loop1_body_frame i p f next f' evs :
  loop1_body i p f = Some (next, f', evs) →
  (b (heap f') = b (heap f) ∧ c (heap f') = c (heap f) ∧
   jmax (heap f') = jmax (heap f)) ∧
  ∀ x, Wr x ∈ evs → x = LocJ ∨ ∃ j, x = LocA i j.
Proof.
  destruct p; unfold loop1_body, act_bind, get_j, set_j, on_heap, act_ret.
  - intros [= <- <- <-]. split; [done|].
    intros x Hin. event_cases Hin. injection Hin as ->. by left.
  - destruct (ctr_j f); [|discriminate]. intros [= <- <- <-]. split; [done|].
    intros x Hin. event_cases Hin.
  - destruct (ctr_j f) as [jv|] eqn:Hj; cbn beta iota; [|discriminate].
    rewrite Hj; cbn beta iota.
    destruct (loop1_stmt i jv jv (heap f)) as [[[[] s1] t1]|] eqn:Hstmt;
      [|discriminate].
    apply loop1_stmt_inv in Hstmt as (Hb & Hc & Hjm & ->).
    intros [= <- <- <-]. split; [done|].
    intros x Hin. event_cases Hin. injection Hin as ->. right. by exists jv.
  - destruct (ctr_j f); [|discriminate]. intros [= <- <- <-]. split; [done|].
    intros x Hin. event_cases Hin. injection Hin as ->. by left.
Qed.

Lemma loop2_body_frame rN2 i p f next f' evs :
  loop2_body rN2 i p f = Some (next, f', evs) →
  (a (heap f') = a (heap f) ∧ b (heap f') = b (heap f) ∧
   jmax (heap f') = jmax (heap f)) ∧
  ∀ x, Wr x ∈ evs → x = LocJ ∨ x = LocK ∨ x = LocC i.
Proof.
  destruct p;
    unfold loop2_body, act_bind, get_j, set_j, get_k, set_k, on_heap, act_ret.
  - intros [= <- <- <-]. split; [done|].
    intros x Hin. event_cases Hin. injection Hin as ->. by left.
  - destruct (ctr_j f); [|discriminate].
    unfold load_jmax. cbn [heap].
    destruct (get (jmax (heap f)) i); [|discriminate].
    intros [= <- <- <-]. split; [done|].
    intros x Hin. event_cases Hin.
  - destruct (ctr_j f); [|discriminate]. intros [= <- <- <-]. split; [done|].
    intros x Hin. event_cases Hin. injection Hin as ->. by left.
  - intros [= <- <- <-]. split; [done|].
    intros x Hin. event_cases Hin. injection Hin as ->. right. by left.
  - destruct (ctr_k f); [|discriminate]. cbn [ctr_j].
    destruct (ctr_j f); [|discriminate]. intros [= <- <- <-]. split; [done|].
    intros x Hin. event_cases Hin.
  - destruct (ctr_k f); [|discriminate]. intros [= <- <- <-]. split; [done|].
    intros x Hin. event_cases Hin. injection Hin as ->. right. by left.
  - destruct (ctr_k f) as [kv|]; [|discriminate]. cbn [ctr_j].
    destruct (ctr_j f) as [jv|]; [|discriminate]. cbn [heap].
    destruct (loop2_stmt rN2 i jv kv (heap f)) as [[[[] s1] t1]|] eqn:Hstmt;
      [|discriminate].
    apply loop2_stmt_inv in Hstmt as (Ha & Hb & Hjm & ->).
    intros [= <- <- <-]. split; [done|].
    intros x Hin. event_cases Hin. injection Hin as ->. right. by right.
Qed.

(** X23. What a call of Kernel A can change, whatever the team does:
    in every execution the call leaves [b], [c] and [jmax] as they
    were, and the outer iteration [i] writes nothing but the shared
    counter [j] and cells of row [i] of [a]. *)
Theorem loop1chunk_frame (E : execution) (lo hi : Z) (s s' : mem)
    (l : list (Z * event)) :
  loop1chunk_log E lo hi s = Some (s', l) →
  b s' = b s ∧ c s' = c s ∧ jmax s' = jmax s ∧
  ∀ i x, x ∈ writes_of i l → x = LocJ ∨ ∃ j, x = LocA i j.
Proof.
  intros Hrun.
  destruct (parallel_for_frame loop1_body L1_init
    (λ s s', b s' = b s ∧ c s' = c s ∧ jmax s' = jmax s)
    (λ i x, x = LocJ ∨ ∃ j, x = LocA i j)) with E lo hi s s' l
    as [(Hb & Hc & Hjm) HW]; [done| |apply loop1_body_frame|exact Hrun|done].
  intros s1 s2 s3 (? & ? & ?) (? & ? & ?). split_and!; congruence.
Qed.

(** X24. What a call of Kernel B can change, whatever the team does:
    in every execution the call leaves [a], [b] and [jmax] as they
    were, and the outer iteration [i] writes nothing but the shared
    counters [j] and [k] and the cell [c[i]]. *)
Theorem loop2chunk_frame (E : execution) (lo hi : Z) (s s' : mem)
    (l : list (Z * event)) :
  loop2chunk_log E lo hi s = Some (s', l) →
  a s' = a s ∧ b s' = b s ∧ jmax s' = jmax s ∧
  ∀ i x, x ∈ writes_of i l → x = LocJ ∨ x = LocK ∨ x = LocC i.
Proof.
  intros Hrun.
  destruct (parallel_for_frame (loop2_body rN2_val) L2_j_init
    (λ s s', a s' = a s ∧ b s' = b s ∧ jmax s' = jmax s)
    (λ i x, x = LocJ ∨ x = LocK ∨ x = LocC i)) with E lo hi s s' l
    as [(Ha & Hb & Hjm) HW]; [done| |apply loop2_body_frame|exact Hrun|done].
  intros s1 s2 s3 (? & ? & ?) (? & ? & ?). split_and!; congruence.
Qed.

(** ** Two threads *)

(** C1 (code bug). Kernel A with a team of two: [j] is declared at
    function scope and is not private, so that the two threads count
    on one [j].  On the memory [init1] leaves, the call on [726, 728)
    in the words of the specification updates [a[726][727]],
    [a[726][728]] and [a[727][728]] and nothing else; the code, with
    thread [0] on row 726, thread [1] on row 727 and the steps
    [steps_skip], updates [a[726][728]], leaves [a[726][727]] and
    [a[727][728]] as they were, and updates [a[727][727]], a cell on
    the diagonal.  In the call on [0, 2) with the steps
    [steps_lockstep], thread [0] updates [a[0][728]], thread [1] then
    [a[1][727]], and so on, every second cell of each row:
    [a[0][727]] and [a[1][728]] are left as they were. *)
Theorem loop1chunk_two_threads :
  exec init1 mem0 = Some mem_init1 ∧
  wp (runKernelA 726 728) mem_init1 (λ _ s' t,
    writes t = [LocA 726 728; LocA 726 727; LocA 727 728] ∧
    a_at s' 726 727 = (0 + cos (b_init1 726 727))%float ∧
    a_at s' 726 728 = (0 + cos (b_init1 726 728))%float ∧
    a_at s' 727 727 = 0%float ∧
    a_at s' 727 728 = (0 + cos (b_init1 727 728))%float) ∧
  wp (loop1chunk (two_threads steps_skip) 726 728) mem_init1 (λ _ s' t,
    writes t = [LocJ; LocJ; LocA 726 728; LocJ; LocA 727 727; LocJ] ∧
    a_at s' 726 727 = 0%float ∧
    a_at s' 726 728 = (0 + cos (b_init1 726 728))%float ∧
    a_at s' 727 727 = (0 + cos (b_init1 727 727))%float ∧
    a_at s' 727 728 = 0%float) ∧
  wp (loop1chunk (two_threads steps_lockstep) 0 2) mem_init1 (λ _ s' t,
    a_at s' 0 728 = (0 + cos (b_init1 0 728))%float ∧
    a_at s' 0 727 = 0%float ∧
    a_at s' 1 728 = 0%float ∧
    a_at s' 1 727 = (0 + cos (b_init1 1 727))%float).
Proof.
  split; [exact init1_mem0|]. split; [|split].
  - lazy. repeat split; reflexivity.
  - lazy. repeat split; reflexivity.
  - lazy. repeat split; reflexivity.
Qed.

(** C2 (code bug). Kernel B with a team of two: [j] and [k] are
    shared.  On the memory [init2] leaves, rows 727 and 728 have the
    bound [jmax[i] = 1]: in the words of the specification the call on
    [727, 729) writes nothing.  The code, with thread [1] on row 727,
    thread [0] on row 728 and the steps [steps_light], adds
    [1 * log(b[728][1]) * rN2] to [c[728]]: thread [0] made its test
    [k<j] after thread [1] had incremented [j]. *)
Theorem loop2chunk_two_threads :
  exec init2 mem0 = Some mem_init2 ∧
  jmax_at mem_init2 727 = 1 ∧ jmax_at mem_init2 728 = 1 ∧
  wp (runKernelB 727 729) mem_init2 (λ _ s' t,
    writes t = [] ∧ c_at s' 727 = 0%float ∧ c_at s' 728 = 0%float) ∧
  wp (loop2chunk (two_threads steps_light) 727 729) mem_init2 (λ _ s' t,
    writes t = [LocJ; LocK; LocJ; LocK; LocJ; LocC 728; LocK; LocJ] ∧
    c_at s' 727 = 0%float ∧
    c_at s' 728 = (0 + of_int (0 + 1) * log (b_init2 728 1) * rN2_val)%float).
Proof.
  split; [exact init2_mem0|].
  split; [lazy; reflexivity|]. split; [lazy; reflexivity|]. split.
  - lazy. repeat split; reflexivity.
  - lazy. repeat split; reflexivity.
Qed.

(** C4 (code bug). The result of a call depends on how the runtime
    shares the rows and orders the steps.  Kernel A on [727, 729),
    from the memory [init1] leaves: one thread adds [cos(b[727][728])]
    to [a[727][728]] once; the team of two with the steps [steps_twice]
    adds it twice in the one call.  Kernel B on [727, 729), from the
    memory [init2] leaves, followed by [valid2]: with one thread the
    checksum is [0]; with the team of two and the steps [steps_light]
    it is the term added to [c[728]]. *)
Theorem schedule_changes_result :
  wp (loop1chunk (one_thread 7) 727 729) mem_init1 (λ _ s' _,
    a_at s' 727 728 = (0 + cos (b_init1 727 728))%float) ∧
  wp (loop1chunk (two_threads steps_twice) 727 729) mem_init1 (λ _ s' _,
    a_at s' 727 728 =
      (0 + cos (b_init1 727 728) + cos (b_init1 727 728))%float) ∧
  wp (loop2chunk (one_thread 12) 727 729 ;;; valid2) mem_init2 (λ sumc _ _,
    sumc = 0%float) ∧
  wp (loop2chunk (two_threads steps_light) 727 729 ;;; valid2) mem_init2
    (λ sumc _ _,
      sumc = (0 + (0 + of_int (0 + 1) * log (b_init2 728 1) * rN2_val))%float).
Proof.
  split; [lazy; reflexivity|]. split; [lazy; reflexivity|].
  split; lazy; reflexivity.
Qed.

(** C7 (code bug). The write sets of two outer iterations are not
    disjoint: both write the counter [j], and in Kernel B the counter
    [k], which the threads share.  This is so with one thread as with
    two; with two the accesses are not ordered, and a thread writes
    the cell of its row that the common counter points at. *)
Theorem iterations_share_counters :
  writes_in 726 (loop1chunk_log (one_thread 13) 726 728 mem_init1)
    = Some [LocJ; LocA 726 728; LocJ; LocA 726 727; LocJ] ∧
  writes_in 727 (loop1chunk_log (one_thread 13) 726 728 mem_init1)
    = Some [LocJ; LocA 727 728; LocJ] ∧
  writes_in 726 (loop1chunk_log (two_threads steps_skip) 726 728 mem_init1)
    = Some [LocJ; LocA 726 728; LocJ] ∧
  writes_in 727 (loop1chunk_log (two_threads steps_skip) 726 728 mem_init1)
    = Some [LocJ; LocA 727 727; LocJ] ∧
  writes_in 727 (loop2chunk_log (two_threads steps_light) 727 729 mem_init2)
    = Some [LocJ; LocK; LocJ] ∧
  writes_in 728 (loop2chunk_log (two_threads steps_light) 727 729 mem_init2)
    = Some [LocJ; LocK; LocC 728; LocK; LocJ].
Proof. repeat split; lazy; reflexivity. Qed.

(** ** Three threads *)

(** X25. With three threads Kernel A can leave the bounds of [a]: in
    the call on [0, 3), from the memory [init1] leaves, with the steps
    [steps_below], thread [0] has passed its test [j > 0] and stands
    before its assignment when the other two threads bring [j] to
    [-1]; its next step is the access [a[0][-1]], which has no defined
    behaviour. *)
Theorem loop1chunk_out_of_bounds :
  (λ cf, (ctr_j (shared cf), team cf !! 0%nat)) <$>
    run loop1_body L1_init (removelast steps_below)
      (fork L1_init (three_threads steps_below) 0 3 mem_init1)
    = Some (Some (-1), Some (Thread [0] L1_stmt)) ∧
  get2 (a mem_init1) 0 (-1) = None ∧
  run loop1_body L1_init steps_below
    (fork L1_init (three_threads steps_below) 0 3 mem_init1) = None ∧
  loop1chunk (three_threads steps_below) 0 3 mem_init1 = None.
Proof. repeat split; lazy; reflexivity. Qed.

End Program.

(** ** The theorems at work on a concrete memory *)

Lemma init2_jmax_shape_witness :
  wf mem0 ∧ ∃ s', exec init2 mem0 = Some s' ∧ get (jmax s') 0 = Some N.
Proof.
  split; [exact wf_mem0|].
  destruct (init2_jmax_shape mem0 wf_mem0) as (_ & s' & Hrun & Hshape).
  exists s'. split; [exact Hrun|].
  apply (proj1 (Hshape 0 ltac:(unfold N; lia))). reflexivity.
Defined.


Lemma init1_idempotent_witness :
  wf mem0 ∧ ∃ s1, exec init1 mem0 = Some s1 ∧ exec (init1 ;;; init1) mem0 = Some s1.
Proof.
  split; [exact wf_mem0|].
  destruct (init1_idempotent mem0 wf_mem0) as (s1 & Hrun1 & Hrun2 & _).
  exists s1. split; [exact Hrun1|exact Hrun2].
Defined.

Lemma jmax_divisor_nonzero_witness :
  0 ≤ 728 ∧ 1 ≤ jmax_divisor 728.
Proof.
  split; [lia|]. apply (jmax_divisor_nonzero 728). lia.
Defined.

(** ** The further theorems at work *)

Lemma wf_mem1 : wf mem1.
Proof.
  split; unfold mem1; cbn [a b c jmax].
  - split; [apply length_replicate|]. apply Forall_replicate, length_replicate.
  - split; [apply length_replicate|]. apply Forall_replicate, length_replicate.
  - apply length_replicate.
  - apply length_replicate.
Qed.

Lemma kinds_spec_distinct : kinds_distinct omp_kinds_spec.
Proof. apply (bool_decide_unpack _). vm_compute. exact I. Qed.

Lemma init_frames_witness :
  ∃ s', exec init1 mem1 = Some s' ∧ c s' = c mem1 ∧ jmax s' = jmax mem1.
Proof. exact (proj1 (init_frames mem1 wf_mem1)). Defined.

Lemma initialisation_resets_witness :
  ∃ s', exec (init1 ;;; init2) mem0 = Some s' ∧
        exec (init1 ;;; init2) mem1 = Some s'.
Proof.
  destruct (initialisation_resets mem0 mem1 wf_mem0 wf_mem1)
    as (s' & Hrun0 & Hrun1 & _).
  exists s'. split; [exact Hrun0|exact Hrun1].
Defined.

Lemma checksum_after_init_witness :
  result_of (init1 ;;; valid1) mem1 = Some 0%float ∧
  result_of (init2 ;;; valid2) mem1 = Some 0%float.
Proof. exact (checksum_after_init mem1 wf_mem1). Defined.

Lemma valid_read_only_witness :
  ∃ t, valid2 mem1 = Some (sum_c_upto mem1 N, mem1, t) ∧ writes t = [] ∧
     Z.of_nat (length (reads t)) = N ∧
     ∀ l, l ∈ reads t → ∃ i, 0 ≤ i < N ∧ l = LocC i.
Proof. exact (proj2 (valid_read_only mem1 wf_mem1)). Defined.

Lemma omp_sched_to_cstr_names_witness :
  omp_sched_to_cstr omp_kinds_spec (omp_sched_dynamic omp_kinds_spec) = "dynamic".
Proof.
  exact (proj1 (proj2
    (omp_sched_to_cstr_names omp_kinds_spec kinds_spec_distinct))).
Defined.

Lemma print_omp_config_identifies_witness :
  print_omp_config omp_kinds_spec rt_example =
    "OMP config: threads=8 procs=8 schedule=dynamic chunk=4" +:+ String newline ""
  ∧ rt_chunk rt_example = rt_chunk rt_example.
Proof.
  split; [reflexivity|].
  exact (proj1 (proj2 (proj2
    (print_omp_config_identifies omp_kinds_spec rt_example rt_example
       eq_refl)))).
Defined.

Lemma init2_load_witness :
  ∃ s', exec init2 mem1 = Some s' ∧
    length (filter (λ m, m = N) (jmax s')) = 67%nat.
Proof.
  destruct (init2_load mem1 wf_mem1) as (s' & Hrun & Hcount & _).
  exists s'. split; [exact Hrun|exact Hcount].
Defined.

(** ** The kernels at work *)

Lemma loop1chunk_one_thread_witness :
  ∃ n s',
    (∀ m, (n ≤ m)%nat →
       ∃ t', loop1chunk cos_approx (one_thread m) 0 N mem1 = Some (tt, s', t')) ∧
    get2 (a s') 0 1 = Some 1.5%float ∧
    get2 (a s') 1 0 = get2 (a mem1) 1 0.
Proof.
  destruct (loop1chunk_one_thread cos_approx 0 N mem1)
    as (n & s' & t & _ & Hrun & _ & Hupd & Hkeep & _);
    [exact wf_mem1|lia|unfold N; lia|lia|].
  exists n, s'. split; [|split].
  - intros m Hm. destruct (Hrun m Hm) as (t' & Ht' & _). exists t'. exact Ht'.
  - rewrite (Hupd 0 1) by (unfold N; lia). lazy. reflexivity.
  - apply Hkeep. lia.
Defined.

Lemma wf_mem2 : wf mem2.
Proof.
  split; unfold mem2; cbn [a b c jmax].
  - split; [apply length_replicate|]. apply Forall_replicate, length_replicate.
  - split; [apply length_replicate|]. apply Forall_replicate, length_replicate.
  - apply length_replicate.
  - apply length_replicate.
Qed.

Lemma jmax_at_mem2 i : 0 ≤ i < N → jmax_at mem2 i = 3.
Proof.
  intros Hi. unfold jmax_at, mem2; cbn [jmax].
  rewrite get_replicate by exact Hi. reflexivity.
Qed.

Lemma loop2chunk_one_thread_witness :
  ∃ n s',
    (∀ m, (n ≤ m)%nat →
       ∃ t', loop2chunk log_approx (one_thread m) 0 N mem2
             = Some (tt, s', t')) ∧
    get (c s') 0 = Some (rN2_val + rN2_val + 2 * rN2_val)%float.
Proof.
  destruct (loop2chunk_one_thread log_approx 0 N mem2)
    as (n & s' & t & _ & Hrun & _ & Hupd & _);
    [exact wf_mem2|lia|unfold N; lia|lia| |].
  { intros i Hi. rewrite jmax_at_mem2 by lia. unfold N. lia. }
  exists n, s'. split.
  - intros m Hm. destruct (Hrun m Hm) as (t' & Ht' & _). exists t'. exact Ht'.
  - rewrite (Hupd 0) by (unfold N; lia). lazy. reflexivity.
Defined.

Lemma every_iteration_writes_j_witness :
  ∃ s' l,
    loop1chunk_log cos_approx (two_threads steps_skip) 726 728 mem_init1
      = Some (s', l) ∧
    LocJ ∈ writes_of 726 l ∧ LocJ ∈ writes_of 727 l.
Proof.
  assert (defined (loop1chunk_log cos_approx (two_threads steps_skip) 726 728
                mem_init1) = true) as Hdef
    by (lazy; reflexivity).
  destruct (loop1chunk_log cos_approx (two_threads steps_skip) 726 728
              mem_init1) as [[s' l]|] eqn:Hrun; [|discriminate Hdef].
  exists s', l. split; [reflexivity|].
  apply (every_iteration_writes_j cos_approx log_approx
           (two_threads steps_skip) 726 728 mem_init1 s' l (or_introl Hrun));
    lia.
Defined.

Lemma loop1chunk_frame_witness :
  ∃ s' l,
    loop1chunk_log cos_approx (two_threads steps_skip) 726 728 mem_init1
      = Some (s', l) ∧
    b s' = b mem_init1 ∧
    ∀ x, x ∈ writes_of 727 l → x = LocJ ∨ ∃ j, x = LocA 727 j.
Proof.
  assert (defined (loop1chunk_log cos_approx (two_threads steps_skip) 726 728
                mem_init1) = true) as Hdef
    by (lazy; reflexivity).
  destruct (loop1chunk_log cos_approx (two_threads steps_skip) 726 728
              mem_init1) as [[s' l]|] eqn:Hrun; [|discriminate Hdef].
  exists s', l. split; [reflexivity|].
  destruct (loop1chunk_frame cos_approx (two_threads steps_skip) 726 728
              mem_init1 s' l Hrun) as (Hb & _ & _ & Hw).
  split; [exact Hb|exact (Hw 727)].
Defined.

Lemma loop2chunk_frame_witness :
  ∃ s' l,
    loop2chunk_log log_approx (two_threads steps_light) 727 729 mem_init2
      = Some (s', l) ∧
    b s' = b mem_init2 ∧
    ∀ x, x ∈ writes_of 728 l → x = LocJ ∨ x = LocK ∨ x = LocC 728.
Proof.
  assert (defined (loop2chunk_log log_approx (two_threads steps_light) 727 729
                mem_init2) = true) as Hdef
    by (lazy; reflexivity).
  destruct (loop2chunk_log log_approx (two_threads steps_light) 727 729
              mem_init2) as [[s' l]|] eqn:Hrun; [|discriminate Hdef].
  exists s', l. split; [reflexivity|].
  destruct (loop2chunk_frame log_approx (two_threads steps_light) 727 729
              mem_init2 s' l Hrun) as (_ & Hb & _ & Hw).
  split; [exact Hb|exact (Hw 728)].
Defined.

Lemma loop1chunk_work_witness :
  ∃ n, ∀ m, (n ≤ m)%nat →
    ∃ t, trace_of (loop1chunk cos_approx (one_thread m) 0 N) mem1 = Some t ∧
      2 * Z.of_nat (length (writes (array_events t))) = N * (N - 1).
Proof.
  destruct (loop1chunk_work cos_approx 0 N mem1) as [n Hn];
    [exact wf_mem1|lia|unfold N; lia|lia|].
  exists n. intros m Hm. destruct (Hn m Hm) as (t & Ht & Hw & _).
  exists t. split; [exact Ht|]. rewrite Hw. reflexivity.
Defined.

Lemma loop2chunk_work_witness :
  ∃ n, ∀ m, (n ≤ m)%nat →
    ∃ t, trace_of (loop2chunk log_approx (one_thread m) 0 N) mem2 = Some t ∧
      Z.of_nat (length (writes (array_events t))) = 3 * N.
Proof.
  destruct (loop2chunk_work log_approx 0 N mem2) as [n Hn];
    [exact wf_mem2|lia|unfold N; lia|lia| |].
  { intros i Hi. rewrite jmax_at_mem2 by lia. unfold N. lia. }
  exists n. intros m Hm. destruct (Hn m Hm) as (t & Ht & Hw).
  exists t. split; [exact Ht|]. rewrite Hw. lazy. reflexivity.
Defined.

Lemma jmax_at_mem_init2 i : 0 ≤ i < N → jmax_at mem_init2 i = jmax_spec i.
Proof.
  intros Hi. unfold jmax_at, mem_init2; cbn [jmax].
  rewrite get_tabulate by exact Hi. reflexivity.
Qed.

Lemma jmax_spec_le i : jmax_spec i ≤ N.
Proof. unfold jmax_spec. by case_decide. Qed.

Lemma loop2chunk_light_rows_witness :
  jmax_at mem_init2 0 = N ∧ jmax_at mem_init2 727 = 1 ∧
  ∃ n s',
    (∀ m, (n ≤ m)%nat →
       exec (loop2chunk log_approx (one_thread m) 0 N) mem_init2 = Some s') ∧
    get (c s') 727 = get (c mem_init2) 727.
Proof.
  split; [lazy; reflexivity|]. split; [lazy; reflexivity|].
  destruct (loop2chunk_light_rows log_approx 0 N mem_init2)
    as (n & s' & Hrun & Hlight);
    [exact wf_mem_init2|lia|unfold N; lia|lia| |].
  { intros i Hi. rewrite jmax_at_mem_init2 by lia. apply jmax_spec_le. }
  exists n, s'. split; [exact Hrun|].
  apply Hlight; [unfold N; lia|]. lazy. discriminate.
Defined.

Lemma kernel_reads_witness :
  ∃ n, ∀ m, (n ≤ m)%nat →
    ∃ t, trace_of (loop2chunk log_approx (one_thread m) 0 N) mem2 = Some t ∧
         LocB 0 0 ∉ reads (array_events t).
Proof.
  destruct (kernel_reads cos_approx log_approx 0 N mem2) as [n Hn];
    [exact wf_mem2|lia|unfold N; lia|lia| |].
  { intros i Hi. rewrite jmax_at_mem2 by lia. unfold N. lia. }
  exists n. intros m Hm. destruct (Hn m Hm) as (_ & t & Ht & Hreads).
  exists t. split; [exact Ht|]. intros Hin.
  destruct (Hreads _ Hin) as (i & _ & [Hl|[Hl|(j & Hj & Hl)]]);
    [discriminate Hl|discriminate Hl|].
  injection Hl as _ Hj0. lia.
Defined.
